(** * wordcount.c: a shallow embedding and its verified properties

    The program reads characters from standard input and from the files
    named on the command line, one reader thread per stream, splits each
    stream into lower-cased alphabetic words and counts them in one shared
    table guarded by one mutex; a printer thread and the end of [main]
    print the table.

    Conventions of the embedding.
    - C [int] and [char] values are [Z]; the narrowing conversions are
      written out ([int_to_char], [to_uchar]).  Plain [char] is taken to be
      signed and eight bits wide, [int] to be 32 bits wide, as with gcc on
      x86 Linux.
    - A NUL-terminated C string is the [string] of its bytes before the
      terminator.
    - The array prefix [words[0 .. len)] of a [wc_Context] is a list, and
      [len] is its length; slots at or beyond [len] are never read by the
      program.
    - Behaviour that C leaves undefined (a store past the end of an array,
      signed overflow) is an explicit [Undefined] outcome.
    - The pthread calls inside the threads return 0, as they do for a
      default mutex that only its owner unlocks; [main] takes the results
      of its own calls from an [environment]. *)

From Stdlib Require Import ZArith Ascii String List Lia.
From stdpp Require Import base tactics list strings sorting pretty relations.

Local Open Scope Z_scope.

(** * The program *)

(** ** Outcomes of a C computation *)

Inductive fault : Type :=
  | WordBufferOverrun (i : Z)    (* store to buf[i], i outside 0..127 *)
  | TableOverrun (i : Z)         (* store to ctxt->words[i], i outside 0..127 *)
  | WordFieldOverrun (n : Z)     (* strcpy of n+1 bytes into word[128] *)
  | CounterOverflow              (* freq++ at INT_MAX *)
  | ThreadArrayOverrun (i : Z).  (* store to tctxt[i] or t[i], i outside 0..9 *)

Global Instance fault_eq_dec : EqDecision fault.
Proof. solve_decision. Defined.

Inductive outcome (A : Type) : Type :=
  | Done (a : A)
  | Undefined (f : fault).
Arguments Done {A} a.
Arguments Undefined {A} f.

Global Instance outcome_bind : MBind outcome := λ A B k m,
  match m with
  | Done a => k a
  | Undefined f => Undefined f
  end.

Definition is_done {A} (m : outcome A) : bool :=
  match m with Done _ => true | Undefined _ => false end.

(** ** Characters and strings *)

Definition INT_MAX : Z := 2147483647.
Definition EOF : Z := -1.

(** The value [getc] returns for a byte: the byte as an [unsigned char]
    converted to [int]. *)
Definition uchar (a : ascii) : Z := Z.of_N (N_of_ascii a).

(** Conversion of an [int] to (signed, 8-bit) [char]. *)
Definition int_to_char (z : Z) : Z := (z + 128) mod 256 - 128.

(** The cast [(unsigned char) c]. *)
Definition to_uchar (c : Z) : Z := c mod 256.

(** [isalpha] and [tolower] of <ctype.h> in the "C" locale, which is in
    force because the program never calls setlocale. *)
Definition isupper (c : Z) : bool := (65 <=? c) && (c <=? 90).
Definition islower (c : Z) : bool := (97 <=? c) && (c <=? 122).
Definition isalpha (c : Z) : bool := isupper c || islower c.
Definition tolower (c : Z) : Z := if isupper c then c + 32 else c.

(** The byte a [char] value stands for in memory. *)
Definition char_byte (c : Z) : ascii := ascii_of_N (Z.to_N (to_uchar c)).

(** [strlen]. *)
Definition strlen (s : string) : Z := Z.of_nat (String.length s).

(** [strcmp] compares the strings byte by byte as [unsigned char]; the C
    standard fixes only the sign of the result, which is what is modelled:
    -1, 0 or 1.  A string that has ended compares below one that has not,
    since the terminator is the least byte. *)
Fixpoint strcmp (s1 s2 : string) : Z :=
  match s1, s2 with
  | EmptyString, EmptyString => 0
  | EmptyString, String _ _ => -1
  | String _ _, EmptyString => 1
  | String c1 r1, String c2 r2 =>
      if uchar c1 =? uchar c2 then strcmp r1 r2
      else if uchar c1 <? uchar c2 then -1 else 1
  end.

(** The C string held in a [char] array: the bytes before the first NUL. *)
Fixpoint c_str (buf : list Z) : string :=
  match buf with
  | [] => EmptyString
  | c :: rest => if c =? 0 then EmptyString else String (char_byte c) (c_str rest)
  end.

(** ** The frequency table *)

Record wc_Word : Type := { word : string; freq : Z }.

Global Instance wc_Word_eq_dec : EqDecision wc_Word.
Proof. solve_decision. Defined.

(** [wc_Context]: the live prefix of [words]; [len] is its length. *)
Abbreviation wc_Context := (list wc_Word).

Definition WORDS_CAP : Z := 128.   (* wc_Word words[128] *)
Definition WORD_CAP : Z := 128.    (* char word[128], char buf[128] *)

Definition len (ctxt : wc_Context) : Z := Z.of_nat (length ctxt).

(** [wc_compare_words], the comparison function handed to [qsort].  The
    source subtracts two [int]s; the subtraction here is that of [Z], which
    gives the same number whenever the [int] subtraction does not overflow.
    That is so for the counts of every table the program builds, which are
    between 1 and [INT_MAX] ([wc_compare_words_in_int]); for other counts
    the definition says nothing about the source. *)
Definition wc_compare_words (a b : wc_Word) : Z :=
  if freq a =? freq b then strcmp (word a) (word b)
  else freq b - freq a.

(** The lookup loop of [wc_store_word]: [found] keeps the index of the last
    slot whose word equals [buf], or stays -1. *)
Fixpoint wc_lookup_from (i : Z) (slots : list wc_Word) (buf : string)
    (found : Z) : Z :=
  match slots with
  | [] => found
  | e :: rest =>
      wc_lookup_from (i + 1) rest buf
        (if strcmp (word e) buf =? 0 then i else found)
  end.

Definition wc_lookup (ctxt : wc_Context) (buf : string) : Z :=
  wc_lookup_from 0 ctxt buf (-1).

(** The second half of [wc_store_word]: append a new entry, or increment
    the entry at [found]. *)
Definition wc_store_found (ctxt : wc_Context) (buf : string) (found : Z)
    : outcome wc_Context :=
  if found =? -1 then
    if WORDS_CAP <=? len ctxt then Undefined (TableOverrun (len ctxt))
    else if WORD_CAP <=? strlen buf then Undefined (WordFieldOverrun (strlen buf))
    else Done (ctxt ++ [{| word := buf; freq := 1 |}])
  else
    match ctxt !! Z.to_nat found with
    | None => Undefined (TableOverrun found)
    | Some e =>
        if INT_MAX <=? freq e then Undefined CounterOverflow
        else Done (<[Z.to_nat found := {| word := word e; freq := freq e + 1 |}]> ctxt)
    end.

Definition wc_store_word (ctxt : wc_Context) (buf : string) : outcome wc_Context :=
  wc_store_found ctxt buf (wc_lookup ctxt buf).

(** What a comparison function tells [qsort]: [a] may stand before [b]
    when [compar a b] is not positive. *)
Definition precedes {A} (compar : A → A → Z) : relation A :=
  λ a b, compar a b <= 0.

Global Instance precedes_dec {A} (compar : A → A → Z) a b :
  Decision (precedes compar a b).
Proof. unfold precedes. apply _. Defined.

(** [qsort] from <stdlib.h>.  The standard does not fix the algorithm; a
    merge sort driven by the sign of [compar] stands for it, and
    [qsort_unique] below shows that for [wc_compare_words] every sorting
    algorithm returns the same array. *)
Definition qsort {A} (compar : A → A → Z) (base : list A) : list A :=
  merge_sort (precedes compar) base.

(** [wc_new_word_callback], between taking and releasing [mtx]. *)
Definition wc_new_word_callback (buf : string) (ctxt : wc_Context)
    : outcome wc_Context :=
  ctxt' ← wc_store_word ctxt buf;
  Done (qsort wc_compare_words ctxt').

(** A sequence of calls of the callback, one after the other. *)
Fixpoint wc_record_all (bufs : list string) (ctxt : wc_Context)
    : outcome wc_Context :=
  match bufs with
  | [] => Done ctxt
  | buf :: rest => ctxt' ← wc_new_word_callback buf ctxt; wc_record_all rest ctxt'
  end.

(** ** The tokenizer: [wc_read_fd] *)

Definition WC_IN_WORD : Z := 1.
Definition WC_OUT_OF_WORD : Z := 0.

(** The store [buf[i] = c] into [char buf[128]]. *)
Definition buf_store (buf : list Z) (i c : Z) : outcome (list Z) :=
  if (0 <=? i) && (i <? WORD_CAP) then Done (<[Z.to_nat i := c]> buf)
  else Undefined (WordBufferOverrun i).

(** [getc]: the next byte of the stream as an [int], or [EOF] at its end,
    and the rest of the stream. *)
Definition getc (fd : string) : Z * string :=
  match fd with
  | EmptyString => (EOF, EmptyString)
  | String a rest => (uchar a, rest)
  end.

Section reader.
(** [wc_read_fd] hands [ctxt] to the callback and never looks into it, so
    the model is parametric in its type. *)
Context {S : Type} (callback : string → S → outcome S).

(** The [while] loop.  The result of [getc] is stored into the [char]
    variable [c] before the comparison with [EOF]; at the end of the stream
    [c] is [(char) EOF], which is [EOF], and the loop ends.  The recursion is
    on the stream; [wc_read_loop_getc] states it with [getc]. *)
Fixpoint wc_read_loop (fd : string) (state i : Z) (buf : list Z) (ctxt : S)
    : outcome S :=
  match fd with
  | EmptyString => Done ctxt
  | String a rest =>
      let c := int_to_char (uchar a) in
      if c =? EOF then Done ctxt
      else if negb (isalpha (to_uchar c)) then
        if state =? WC_IN_WORD then
          buf' ← buf_store buf i 0;
          ctxt' ← callback (c_str buf') ctxt;
          wc_read_loop rest WC_OUT_OF_WORD 0 buf' ctxt'
        else wc_read_loop rest WC_OUT_OF_WORD 0 buf ctxt
      else
        let state' := if state =? WC_OUT_OF_WORD then WC_IN_WORD else state in
        buf' ← buf_store buf i (int_to_char (tolower (to_uchar c)));
        wc_read_loop rest state' (i + 1) buf' ctxt
  end.

(** [buf] is an automatic array without initializer: its 128 cells start
    with indeterminate values [junk 0 .. junk 127]. *)
Definition wc_read_fd (junk : nat → Z) (fd : string) (ctxt : S) : outcome S :=
  wc_read_loop fd WC_OUT_OF_WORD 0 (junk <$> seq 0 128) ctxt.
End reader.

(** A callback that only records the words it is given, in order. *)
Definition wc_collect (buf : string) (log : list string) : outcome (list string) :=
  Done (log ++ [buf]).

(** The words a stream delivers to the callback. *)
Definition wc_words (junk : nat → Z) (fd : string) : outcome (list string) :=
  wc_read_fd wc_collect junk fd [].

(** What a reader thread does to the table when it runs alone. *)
Definition wc_thread_read (junk : nat → Z) (fd : string) (ctxt : wc_Context)
    : outcome wc_Context :=
  wc_read_fd wc_new_word_callback junk fd ctxt.

(** ** Printing: [wc_print_words] *)

Definition nl : string := String (ascii_of_nat 10) EmptyString.

Definition wc_header : string := nl +:+ "Current word frequency count: " +:+ nl.
Definition wc_separator : string := "----------------------------- " +:+ nl.

(** One [printf("%s - %d \n", word, freq)]. *)
Definition wc_entry (e : wc_Word) : string :=
  word e +:+ " - " +:+ pretty (freq e) +:+ " " +:+ nl.

(** The strings that the [printf] calls of one [wc_print_words] write to
    standard output, in order. *)
Definition wc_print_words (ctxt : wc_Context) : list string :=
  wc_header :: (wc_entry <$> ctxt) ++ [wc_separator].

(** The bytes on standard output after a sequence of writes. *)
Fixpoint text (writes : list string) : string :=
  match writes with
  | [] => EmptyString
  | w :: rest => w +:+ text rest
  end.

(** ** The coordinator: [main] *)

Definition THREADS_CAP : Z := 10.   (* pthread_t t[10]; wc_Thread_Context tctxt[10] *)
Definition EXIT_SUCCESS : Z := 0.
Definition EXIT_FAILURE : Z := 1.

(** What [main] does, in program order.  The final [wc_print_words] is
    its three parts: taking the mutex, the [printf] calls, releasing the
    mutex. *)
Inductive action : Type :=
  | CreateReader (i : Z)   (* pthread_create(&t[i], NULL, wc_thread_read, &tctxt[i]) *)
  | Fopen (i : Z)          (* tctxt[i].fd = fopen(argv[i], "r") *)
  | CreatePrinter          (* pthread_create(&print, NULL, wc_thread_print, &tctxt[0]) *)
  | JoinReader (i : Z)     (* pthread_join(t[i], &res) *)
  | CancelPrinter          (* pthread_cancel(print) *)
  | JoinPrinter            (* pthread_join(print, &res) *)
  | LockMtx                (* pthread_mutex_lock(&mtx) of wc_print_words(tctxt->ctxt) *)
  | PrintWords             (* the printf calls of wc_print_words(tctxt->ctxt) *)
  | UnlockMtx              (* pthread_mutex_unlock(&mtx) of wc_print_words(tctxt->ctxt) *)
  | Exit (status : Z)      (* exit(status) *)
  | Crash (f : fault).     (* undefined behaviour *)

Global Instance action_eq_dec : EqDecision action.
Proof. solve_decision. Defined.

(** The answers of the environment: whether [fopen(argv[i])] returns a
    stream, and whether a pthread call returns 0.  Every call returns: a
    [pthread_mutex_lock] that blocks for ever is a matter of the threads
    ([pstep] below), not of this list of actions. *)
Record environment : Type := { fopen_ok : Z → bool; pthread_ok : action → bool }.

(** [for (i = 1; i < argc; i++)] with [n] iterations left; [k] is the rest
    of [main]. *)
Fixpoint main_open_loop (env : environment) (n : nat) (i : Z) (k : list action)
    : list action :=
  match n with
  | O => k
  | S n' =>
      if THREADS_CAP <=? i then [Crash (ThreadArrayOverrun i)]
      else if negb (fopen_ok env i) then [Fopen i; Exit EXIT_FAILURE]
      else if negb (pthread_ok env (CreateReader i))
           then [Fopen i; CreateReader i; Exit EXIT_FAILURE]
      else Fopen i :: CreateReader i :: main_open_loop env n' (i + 1) k
  end.

(** [for (i = 0; i < argc; i++)] around [pthread_join]. *)
Fixpoint main_join_loop (env : environment) (n : nat) (i : Z) (k : list action)
    : list action :=
  match n with
  | O => k
  | S n' =>
      if THREADS_CAP <=? i then [Crash (ThreadArrayOverrun i)]
      else if negb (pthread_ok env (JoinReader i)) then [JoinReader i; Exit EXIT_FAILURE]
      else JoinReader i :: main_join_loop env n' (i + 1) k
  end.

(** [wc_print_words(tctxt->ctxt)] at the end of [main], with its two
    [if (s != 0) exit(EXIT_FAILURE)], and then [exit(EXIT_SUCCESS)]. *)
Definition main_print_words (env : environment) : list action :=
  if negb (pthread_ok env LockMtx) then [LockMtx; Exit EXIT_FAILURE]
  else if negb (pthread_ok env UnlockMtx)
       then [LockMtx; PrintWords; UnlockMtx; Exit EXIT_FAILURE]
  else [LockMtx; PrintWords; UnlockMtx; Exit EXIT_SUCCESS].

Definition main (argc : Z) (env : environment) : list action :=
  if negb (pthread_ok env (CreateReader 0)) then [CreateReader 0; Exit EXIT_FAILURE]
  else
    CreateReader 0 ::
    main_open_loop env (Z.to_nat (argc - 1)) 1
      (if negb (pthread_ok env CreatePrinter) then [CreatePrinter; Exit EXIT_FAILURE]
       else
         CreatePrinter ::
         main_join_loop env (Z.to_nat argc) 0
           (if negb (pthread_ok env CancelPrinter) then [CancelPrinter; Exit EXIT_FAILURE]
            else if negb (pthread_ok env JoinPrinter)
                 then [CancelPrinter; JoinPrinter; Exit EXIT_FAILURE]
            else CancelPrinter :: JoinPrinter :: main_print_words env)).

(** An environment in which every call succeeds. *)
Definition env_ok : environment := {| fopen_ok := λ _, true; pthread_ok := λ _, true |}.

(** ** The threads and the mutex *)

Inductive tid : Type := Reader (i : nat) | Printer.

(** Where a reader thread stands: outside the callback, or inside it with
    [mtx] taken, before the lookup loop, before the store, before [qsort],
    or before the unlock. *)
Inductive rpc : Type :=
  | RIdle
  | RLookup (buf : string)
  | RStore (buf : string) (found : Z)
  | RSort
  | RUnlock.

(** A reader: the words its stream has yet to deliver, and where it is. *)
Record reader : Type := Rd { pending : list string; rat : rpc }.

(** Where the printer thread stands: asleep, or inside [wc_print_words] with
    [mtx] taken, before the header, before line [i] of the loop, or before
    the unlock. *)
Inductive ppc : Type := PSleep | PHeader | PLine (i : Z) | PUnlock.

Record sys : Type := Sys {
  table : wc_Context;      (* ctxt in main, shared by all threads *)
  mtx : option tid;        (* the owner of mtx, if it is locked *)
  readers : list reader;
  printer : ppc;
  out : list string        (* the writes to stdout so far *)
}.

Global Instance tid_eq_dec : EqDecision tid.
Proof. solve_decision. Defined.
Global Instance rpc_eq_dec : EqDecision rpc.
Proof. solve_decision. Defined.
Global Instance ppc_eq_dec : EqDecision ppc.
Proof. solve_decision. Defined.

(** One step of one thread.  [pthread_mutex_lock] returns only when the
    mutex is free; [pthread_mutex_unlock] frees it.  The lookup loop, the
    store, [qsort], each [printf] are steps of their own, so that what the
    mutex keeps apart is kept apart by the mutex and not by the model.  A
    store that is undefined has no successor state.  These are the steps
    of the readers and the printer, which are all there is while a reader
    runs: [main] is then inside [pthread_join].  What [main] does once the
    readers are done, the cancelling of the printer and the final report,
    is in [pstep] below. *)
Inductive step : sys → sys → Prop :=
  | step_r_lock T rs p o i w rest :
      rs !! i = Some (Rd (w :: rest) RIdle) →
      step (Sys T None rs p o)
           (Sys T (Some (Reader i)) (<[i := Rd rest (RLookup w)]> rs) p o)
  | step_r_lookup T m rs p o i ws w :
      rs !! i = Some (Rd ws (RLookup w)) →
      step (Sys T m rs p o)
           (Sys T m (<[i := Rd ws (RStore w (wc_lookup T w))]> rs) p o)
  | step_r_store T T' m rs p o i ws w found :
      rs !! i = Some (Rd ws (RStore w found)) →
      wc_store_found T w found = Done T' →
      step (Sys T m rs p o) (Sys T' m (<[i := Rd ws RSort]> rs) p o)
  | step_r_sort T m rs p o i ws :
      rs !! i = Some (Rd ws RSort) →
      step (Sys T m rs p o)
           (Sys (qsort wc_compare_words T) m (<[i := Rd ws RUnlock]> rs) p o)
  | step_r_unlock T m rs p o i ws :
      rs !! i = Some (Rd ws RUnlock) →
      step (Sys T m rs p o) (Sys T None (<[i := Rd ws RIdle]> rs) p o)
  | step_p_lock T rs o :
      step (Sys T None rs PSleep o) (Sys T (Some Printer) rs PHeader o)
  | step_p_header T m rs o :
      step (Sys T m rs PHeader o) (Sys T m rs (PLine 0) (o ++ [wc_header]))
  | step_p_line T m rs o i e :
      0 <= i → T !! Z.to_nat i = Some e →
      step (Sys T m rs (PLine i) o) (Sys T m rs (PLine (i + 1)) (o ++ [wc_entry e]))
  | step_p_separator T m rs o i :
      len T <= i →
      step (Sys T m rs (PLine i) o) (Sys T m rs PUnlock (o ++ [wc_separator]))
  | step_p_unlock T m rs o :
      step (Sys T m rs PUnlock o) (Sys T None rs PSleep o).

(** All threads created, none has run yet; [wss] are the words the
    readers' streams will deliver. *)
Definition sys_init (wss : list (list string)) : sys :=
  Sys [] None ((λ ws, Rd ws RIdle) <$> wss) PSleep [].

(** Every reader has delivered all of its words and left the callback. *)
Definition readers_done (s : sys) : Prop :=
  Forall (λ r, r = Rd [] RIdle) (readers s).

(** ** The threads and the end of [main] *)

(** Where [main] stands once all threads are created: in
    [pthread_join(t[i])] of its join loop; in [pthread_join(print)], after
    [pthread_cancel(print)]; in the [pthread_mutex_lock] of its final
    [wc_print_words]; or at [exit(EXIT_SUCCESS)]. *)
Inductive mpc : Type := MJoin (i : nat) | MJoinPrinter | MLock | MExit.

Global Instance mpc_eq_dec : EqDecision mpc.
Proof. solve_decision. Defined.

Record prog : Type := Prog {
  threads : sys;          (* the readers, the printer, and what they share *)
  main_at : mpc;
  cancel_sent : bool;     (* pthread_cancel(print) has been called *)
  printer_gone : bool     (* the printer thread has terminated *)
}.

(** Where a pending cancellation request can end the printer thread.  Its
    cancelability is the default one (enabled, deferred), so it ends at a
    cancellation point: [sleep] is one, and [printf] may be one (it is
    when it writes).  [pthread_mutex_lock] and [pthread_mutex_unlock] are
    not.  [wc_thread_print] installs no cleanup handler, so a printer that
    ends at a [printf] inside [wc_print_words] leaves [mtx] locked. *)
Definition cancellation_point (p : ppc) : bool :=
  match p with
  | PSleep | PHeader | PLine _ => true
  | PUnlock => false
  end.

(** One step of the program after the threads are created.  The readers
    and the printer step as in [step].  [main] waits in [pthread_join] for
    each reader in turn, which returns once that reader has read its
    stream to the end and left [wc_read_fd]; then it calls
    [pthread_cancel(print)], waits for the printer to terminate, and calls
    [wc_print_words]: [pthread_mutex_lock] returns only when the mutex is
    free, and by then [main] is the only thread left, so the report is
    written in one step.  After the printer has terminated no thread
    steps: the readers were joined before the cancel. *)
Inductive pstep : prog → prog → Prop :=
  | pstep_thread s s' m c :
      step s s' →
      pstep (Prog s m c false) (Prog s' m c false)
  | pstep_join s i c g :
      readers s !! i = Some (Rd [] RIdle) →
      pstep (Prog s (MJoin i) c g) (Prog s (MJoin (S i)) c g)
  | pstep_cancel s g :
      pstep (Prog s (MJoin (length (readers s))) false g) (Prog s MJoinPrinter true g)
  | pstep_cancelled s m :
      cancellation_point (printer s) = true →
      pstep (Prog s m true false) (Prog s m true true)
  | pstep_join_printer s c :
      pstep (Prog s MJoinPrinter c true) (Prog s MLock c true)
  | pstep_final_report T rs p o c g :
      pstep (Prog (Sys T None rs p o) MLock c g)
            (Prog (Sys T None rs p (o ++ wc_print_words T)) MExit c g).

(** All threads created, [main] about to join the first reader. *)
Definition prog_init (wss : list (list string)) : prog :=
  Prog (sys_init wss) (MJoin 0) false false.

(** * Vocabulary of the properties *)

(** ** Orders *)

(** The order the specification speaks of: ascending lexicographic order on
    the bytes of the word. *)
Inductive lex_lt : string → string → Prop :=
  | lex_lt_nil c s : lex_lt EmptyString (String c s)
  | lex_lt_head c1 c2 s1 s2 :
      (N_of_ascii c1 < N_of_ascii c2)%N → lex_lt (String c1 s1) (String c2 s2)
  | lex_lt_tail c s1 s2 : lex_lt s1 s2 → lex_lt (String c s1) (String c s2).

(** The order the specification gives for a report: descending count, ties
    broken by ascending lexicographic order of the word. *)
Definition report_before (a b : wc_Word) : Prop :=
  freq b < freq a ∨ (freq a = freq b ∧ lex_lt (word a) (word b)).

(** ** Counting *)

(** The number of times [w] occurs among the recorded words [bufs]. *)
Definition occurrences (w : string) (bufs : list string) : Z :=
  Z.of_nat (length (filter (λ b, b = w) bufs)).

(** The count the table holds for [w]: the sum of [freq] over the entries
    whose word is [w] (at most one entry in a well-formed table). *)
Fixpoint wc_count (ctxt : wc_Context) (w : string) : Z :=
  match ctxt with
  | [] => 0
  | e :: rest => (if decide (word e = w) then freq e else 0) + wc_count rest w
  end.

(** A well-formed table: no word twice, every count positive. *)
Definition wc_wf (ctxt : wc_Context) : Prop :=
  NoDup (word <$> ctxt) ∧ Forall (λ e, 0 < freq e) ctxt.

(** The table stays inside its arrays and its counters inside [int]. *)
Definition wc_bounded (ctxt : wc_Context) : Prop :=
  len ctxt <= WORDS_CAP ∧
  Forall (λ e, strlen (word e) < WORD_CAP ∧ freq e <= INT_MAX) ctxt.

(** The recorded words fit the program's fixed arrays and counters: at most
    128 distinct words, each shorter than 128 bytes, none recorded more
    than [INT_MAX] times. *)
Definition fits (bufs : list string) : Prop :=
  Z.of_nat (length (remove_dups bufs)) <= WORDS_CAP ∧
  Forall (λ b, strlen b < WORD_CAP) bufs ∧
  Forall (λ b, occurrences b bufs <= INT_MAX) bufs.

Global Instance fits_dec bufs : Decision (fits bufs).
Proof. unfold fits. apply _. Defined.

(** What the specification asks of the table after the calls [bufs]: no
    word twice, every recorded word present, and every entry's count the
    number of times its word was recorded. *)
Definition tallies (bufs : list string) (ctxt : wc_Context) : Prop :=
  NoDup (word <$> ctxt) ∧
  (∀ w, w ∈ bufs → w ∈ word <$> ctxt) ∧
  (∀ e, e ∈ ctxt → freq e = occurrences (word e) bufs).

(** The sum of the counts of the table. *)
Fixpoint wc_total (ctxt : wc_Context) : Z :=
  match ctxt with
  | [] => 0
  | e :: rest => freq e + wc_total rest
  end.

(** No count of [T1] is above the count that [T2] holds for the same
    word. *)
Definition wc_le (T1 T2 : wc_Context) : Prop :=
  ∀ w, wc_count T1 w <= wc_count T2 w.

(** ** Letters *)

(** A byte that [wc_read_fd] takes for a letter. *)
Definition is_letter (a : ascii) : bool :=
  isalpha (to_uchar (int_to_char (uchar a))).

Fixpoint all_letters (s : string) : bool :=
  match s with
  | EmptyString => true
  | String a rest => is_letter a && all_letters rest
  end.

(** A byte that ends a word and not the stream: no letter and not 0xFF. *)
Definition is_delimiter (a : ascii) : bool :=
  negb (is_letter a) && negb (int_to_char (uchar a) =? EOF).

(** A stream without a byte 0xFF. *)
Fixpoint no_end_byte (s : string) : bool :=
  match s with
  | EmptyString => true
  | String a rest => negb (int_to_char (uchar a) =? EOF) && no_end_byte rest
  end.

(** The lower-case form of a byte: an upper-case ASCII letter becomes the
    lower-case one, any other byte stays. *)
Definition lower_byte (a : ascii) : ascii :=
  if isupper (uchar a) then ascii_of_N (Z.to_N (uchar a + 32)) else a.

Fixpoint lower_stream (s : string) : string :=
  match s with
  | EmptyString => EmptyString
  | String a rest => String (lower_byte a) (lower_stream rest)
  end.

(** A string of lower-case ASCII letters. *)
Fixpoint all_lower (s : string) : bool :=
  match s with
  | EmptyString => true
  | String a rest => islower (uchar a) && all_lower rest
  end.

(** Every run of letters of the stream, up to its first byte 0xFF, is at
    most 127 letters long; [n] letters of the current run are read. *)
Fixpoint short_runs (s : string) (n : nat) : bool :=
  match s with
  | EmptyString => true
  | String a rest =>
      if int_to_char (uchar a) =? EOF then true
      else if is_letter a then (n <? 127)%nat && short_runs rest (S n)
      else short_runs rest 0
  end.

(** ** The text of a report *)

(** Lines of text: each line is followed by a newline. *)
Definition unlines (ls : list string) : string := text ((λ l, l +:+ nl) <$> ls).

(** The line [wc_print_words] writes for an entry, without its newline. *)
Definition wc_entry_line (e : wc_Word) : string :=
  word e +:+ " - " +:+ pretty (freq e) +:+ " ".

(** The line the specification gives for an entry. *)
Definition spec_entry_line (e : wc_Word) : string :=
  word e +:+ " - " +:+ pretty (freq e).

Fixpoint is_prefix (p s : string) : bool :=
  match p, s with
  | EmptyString, _ => true
  | String a p', String b s' => Ascii.eqb a b && is_prefix p' s'
  | String _ _, EmptyString => false
  end.

(** [needle] occurs somewhere in [hay]. *)
Fixpoint occurs_in (needle hay : string) : bool :=
  is_prefix needle hay ||
  match hay with
  | EmptyString => false
  | String _ rest => occurs_in needle rest
  end.

(** ** The thread system *)

(** The words a reader has not yet stored. *)
Definition todo (r : reader) : list string :=
  match rat r with
  | RLookup w | RStore w _ => w :: pending r
  | _ => pending r
  end.

(** A table that some sequence of whole calls of the callback leaves
    behind, the calls being among those the readers make. *)
Definition snapshot_of (wss : list (list string)) (T : wc_Context) : Prop :=
  ∃ bufs, bufs ⊆+ concat wss ∧ wc_record_all bufs [] = Done T.

(** What the printer has written of the report it is in the middle of. *)
Definition partial_report (p : ppc) (T : wc_Context) : list string :=
  match p with
  | PLine i => wc_header :: (wc_entry <$> take (Z.to_nat i) T)
  | _ => []
  end.

(** The invariant of the thread system.  [bufs] are the words stored so
    far, in the order of the stores; [T] is the table that the same calls
    made one after the other leave behind; [snaps] are the tables of the
    reports completed so far. *)
Record sys_inv_at (wss : list (list string)) (s : sys)
    (bufs : list string) (T : wc_Context) (snaps : list wc_Context) : Prop := SysInv {
  inv_words : bufs ++ concat (todo <$> readers s) ≡ₚ concat wss;
  inv_calls : wc_record_all bufs [] = Done T;
  inv_perm : table s ≡ₚ T;
  inv_sorted : (∀ i r, readers s !! i = Some r → rat r ≠ RSort) → table s = T;
  inv_mutex_r : ∀ i r, readers s !! i = Some r → rat r ≠ RIdle → mtx s = Some (Reader i);
  inv_mutex_p : printer s ≠ PSleep → mtx s = Some Printer;
  inv_found : ∀ i r w found,
    readers s !! i = Some r → rat r = RStore w found → found = wc_lookup (table s) w;
  inv_line : ∀ i, printer s = PLine i → 0 <= i;
  inv_snaps : Forall (snapshot_of wss) snaps;
  inv_out : out s = concat (wc_print_words <$> snaps) ++ partial_report (printer s) (table s);
  inv_holder : ∀ t, mtx s = Some t →
    match t with
    | Reader i => ∃ r, readers s !! i = Some r ∧ rat r ≠ RIdle
    | Printer => printer s ≠ PSleep
    end
}.

Definition sys_inv (wss : list (list string)) (s : sys) : Prop :=
  ∃ bufs T snaps, sys_inv_at wss s bufs T snaps.

(** The steps a reader has left: five for each word not yet begun, and
    those to the end of the call it is in. *)
Definition steps_left (r : reader) : nat :=
  5 * length (pending r) +
  match rat r with
  | RIdle => 0 | RLookup _ => 4 | RStore _ _ => 3 | RSort => 2 | RUnlock => 1
  end.

Definition work (rs : list reader) : nat := sum_list (steps_left <$> rs).

(** What the reports written so far are: whole reports of tables left
    behind by whole calls, each with counts no lower than the one before
    and none above the table as it is now, and then the part of the report
    the printer is in the middle of. *)
Definition reports_inv (wss : list (list string)) (s : sys)
    (snaps : list wc_Context) : Prop :=
  out s = concat (wc_print_words <$> snaps) ++ partial_report (printer s) (table s) ∧
  Forall (snapshot_of wss) snaps ∧
  StronglySorted wc_le snaps ∧
  Forall (λ T, wc_le T (table s)) snaps.

(** The thread that holds the mutex is a reader about to make a store that
    is undefined. *)
Definition at_undefined_store (s : sys) : Prop :=
  ∃ i ws w f,
    readers s !! i = Some (Rd ws (RStore w (wc_lookup (table s) w))) ∧
    mtx s = Some (Reader i) ∧
    wc_store_word (table s) w = Undefined f.

(** [main] waits for the mutex, which the cancelled printer left
    locked. *)
Definition main_blocked (P : prog) : Prop :=
  main_at P = MLock ∧ cancel_sent P = true ∧ printer_gone P = true ∧
  mtx (threads P) = Some Printer.

(** What holds of the program between the creation of the threads and
    the exit of [main]. *)
Record prog_inv (wss : list (list string)) (P : prog) : Prop := ProgInv {
  pinv_threads : main_at P ≠ MExit → rtc step (sys_init wss) (threads P);
  pinv_before : cancel_sent P = false → printer_gone P = false ∧ ∃ i, main_at P = MJoin i;
  pinv_after : cancel_sent P = true →
    readers_done (threads P) ∧ ∀ i, main_at P ≠ MJoin i;
  pinv_alive : printer_gone P = false → main_at P ≠ MLock ∧ main_at P ≠ MExit;
  pinv_joined : ∀ i j r, main_at P = MJoin i → (j < i)%nat →
    readers (threads P) !! j = Some r → r = Rd [] RIdle
}.

(** ** The actions of [main] *)

(** The actions of [main] for the files [i], [i+1], ... ([n] of them) when
    every call succeeds, and those of its join loop. *)
Definition opens (i n : Z) : list action :=
  concat ((λ j, [Fopen j; CreateReader j]) <$> seqZ i n).

Definition joins (i n : Z) : list action := JoinReader <$> seqZ i n.

(** An action before the final report: not the [printf] calls, not the
    release of the mutex after them, not an exit and not a crash. *)
Definition is_progress (a : action) : bool :=
  match a with
  | Exit _ | Crash _ | PrintWords | UnlockMtx => false
  | _ => true
  end.

(** ** Concrete inputs *)

(** [n] distinct two-letter words: aa, ab, ..., az, ba, ... *)
Definition two_letters (n : nat) : string :=
  String (ascii_of_nat (97 + n / 26)) (String (ascii_of_nat (97 + n mod 26)) EmptyString).

Definition distinct_words (n : nat) : list string := two_letters <$> seq 0 n.

(** The table after 128 distinct words have been recorded. *)
Definition recorded_128 : outcome wc_Context :=
  Eval vm_compute in wc_record_all (distinct_words 128) [].

Definition full_table : wc_Context :=
  Eval vm_compute in match recorded_128 with Done ctxt => ctxt | Undefined _ => [] end.

(** The byte 0xFF. *)
Definition byte_FF : ascii := ascii_of_nat 255.

(** [n] times the byte [a]. *)
Fixpoint letters (a : ascii) (n : nat) : string :=
  match n with
  | O => EmptyString
  | S n' => String a (letters a n')
  end.

(** The table {"a":1}. *)
Definition one_entry : wc_Context := [ {| word := "a"; freq := 1 |} ].

(** Two readers, one with the words "the", "cat" and one with "the"; in
    [demo_final] all calls are made and one report was printed, between the
    first and the second call. *)
Definition demo_wss : list (list string) := [["the"; "cat"]; ["the"]]%string.

Definition demo_final : sys :=
  Sys [ {| word := "the"; freq := 2 |}; {| word := "cat"; freq := 1 |} ]
      None [Rd [] RIdle; Rd [] RIdle] PSleep
      (wc_print_words [ {| word := "the"; freq := 1 |} ]).

(** The words a stream delivers to the callback; by [wc_read_fd_junk] they
    do not depend on the initial contents of [buf]. *)
Definition stream_words (fd : string) : list string :=
  match wc_words (λ _, 0) fd with
  | Done ws => ws
  | Undefined _ => []
  end.

(** The words that the streams "the cat sat" and "the dog sat" deliver,
    and the state after all calls, with nothing printed yet. *)
Definition the_cat_dog : list (list string) :=
  [stream_words "the cat sat"; stream_words "the dog sat"].

Definition the_cat_dog_final : sys :=
  Sys [ {| word := "the"; freq := 2 |}; {| word := "cat"; freq := 1 |};
        {| word := "dog"; freq := 1 |} ]
      None [Rd [] RIdle; Rd [] RIdle] PSleep [].

(** Two readers whose words together are 129 distinct words: the first
    delivers 128 of them, the second the last one. *)
Definition over_capacity : list (list string) :=
  [distinct_words 128; [two_letters 128]].

(** The first reader has made all its calls, the second is inside the
    callback, before the store of its word. *)
Definition over_capacity_stuck : sys :=
  Sys full_table (Some (Reader 1))
      [Rd [] RIdle; Rd [] (RStore (two_letters 128) (-1))] PSleep [].

(** An environment in which the files before [j] can be opened and file
    [j] cannot. *)
Definition env_missing (j : Z) : environment :=
  {| fopen_ok := λ i, i <? j; pthread_ok := λ _, true |}.

(** ** Tactics *)

(** A lookup after an update of the reader at [i]: at [i], or elsewhere. *)
Ltac insert_cases H :=
  apply list_lookup_insert_Some in H as [(<- & <- & _)|(? & H)].

(** One step of a concrete run. *)
Tactic Notation "sys_step" uconstr(c) :=
  eapply rtc_l; [eapply c; try reflexivity; try done | cbn].

(** * Properties *)

(** ** The model at work *)

Example store_demo :
  wc_record_all ["b"; "a"; "b"; "c"; "a"; "b"]%string [] =
  Done [ {| word := "b"; freq := 3 |}; {| word := "a"; freq := 2 |};
         {| word := "c"; freq := 1 |} ].
Proof. vm_compute. reflexivity. Qed.

Example words_demo junk :
  wc_words junk "Hello, World! foo-bar " = Done ["hello"; "world"; "foo"; "bar"]%string.
Proof. vm_compute. reflexivity. Qed.

Example words_at_end_demo junk :
  wc_words junk "Hello, World! foo-bar" = Done ["hello"; "world"; "foo"]%string.
Proof. vm_compute. reflexivity. Qed.

Example print_demo :
  text (wc_print_words [ {| word := "b"; freq := 3 |}; {| word := "a"; freq := 12 |} ]) =
  (nl +:+ "Current word frequency count: " +:+ nl +:+
   "b - 3 " +:+ nl +:+ "a - 12 " +:+ nl +:+ "----------------------------- " +:+ nl)%string.
Proof. vm_compute. reflexivity. Qed.

(** ** [strcmp] orders strings lexicographically *)

Lemma uchar_inj a b : uchar a = uchar b → a = b.
Proof.
  unfold uchar. intros H. apply N2Z.inj in H.
  rewrite <- (ascii_N_embedding a), <- (ascii_N_embedding b). by rewrite H.
Qed.

Lemma uchar_range a : 0 <= uchar a < 256.
Proof. unfold uchar. pose proof (N_ascii_bounded a). lia. Qed.

Lemma strcmp_sign s1 s2 : strcmp s1 s2 = -1 ∨ strcmp s1 s2 = 0 ∨ strcmp s1 s2 = 1.
Proof.
  revert s2. induction s1 as [|c1 r1 IH]; intros [|c2 r2]; simpl; auto.
  destruct (uchar c1 =? uchar c2); [apply IH|].
  destruct (uchar c1 <? uchar c2); auto.
Qed.

Lemma strcmp_eq s1 s2 : strcmp s1 s2 = 0 ↔ s1 = s2.
Proof.
  revert s2. induction s1 as [|c1 r1 IH]; intros [|c2 r2]; simpl; try done.
  destruct (Z.eqb_spec (uchar c1) (uchar c2)) as [E|E].
  - apply uchar_inj in E as ->. rewrite IH. split; congruence.
  - split; [destruct (uchar c1 <? uchar c2); done | congruence].
Qed.

Lemma strcmp_refl s : strcmp s s = 0.
Proof. by apply strcmp_eq. Qed.

Lemma strcmp_flip s1 s2 : strcmp s2 s1 = - strcmp s1 s2.
Proof.
  revert s2. induction s1 as [|c1 r1 IH]; intros [|c2 r2]; simpl; try done.
  destruct (Z.eqb_spec (uchar c1) (uchar c2)) as [E|E].
  - rewrite E, Z.eqb_refl. apply IH.
  - destruct (Z.eqb_spec (uchar c2) (uchar c1)); [congruence|].
    destruct (Z.ltb_spec (uchar c1) (uchar c2)), (Z.ltb_spec (uchar c2) (uchar c1)); lia.
Qed.

Lemma strcmp_lt s1 s2 : strcmp s1 s2 < 0 ↔ lex_lt s1 s2.
Proof.
  split.
  - revert s2. induction s1 as [|c1 r1 IH]; intros [|c2 r2]; simpl; try lia.
    + constructor.
    + destruct (Z.eqb_spec (uchar c1) (uchar c2)) as [E|E].
      * apply uchar_inj in E as ->. intros. apply lex_lt_tail. by apply IH.
      * destruct (Z.ltb_spec (uchar c1) (uchar c2)); [|lia].
        intros _. apply lex_lt_head. unfold uchar in *. lia.
  - induction 1 as [c s|c1 c2 s1 s2 H|c s1 s2 H IH]; simpl; [lia| |].
    + destruct (Z.eqb_spec (uchar c1) (uchar c2)) as [E|E];
        [unfold uchar in E; lia|].
      destruct (Z.ltb_spec (uchar c1) (uchar c2)); [lia|unfold uchar in *; lia].
    + by rewrite Z.eqb_refl.
Qed.

Lemma strcmp_trans s1 s2 s3 :
  strcmp s1 s2 <= 0 → strcmp s2 s3 <= 0 → strcmp s1 s3 <= 0.
Proof.
  revert s2 s3. induction s1 as [|c1 r1 IH]; intros [|c2 r2] [|c3 r3]; simpl; try lia.
  destruct (Z.eqb_spec (uchar c1) (uchar c2)), (Z.eqb_spec (uchar c2) (uchar c3)),
    (Z.eqb_spec (uchar c1) (uchar c3)); try lia; try apply IH;
    repeat match goal with |- context [?a <? ?b] => destruct (Z.ltb_spec a b) end;
    lia.
Qed.

(** ** [wc_compare_words] is a total order, so [qsort] has one result *)

Lemma precedes_wc a b :
  precedes wc_compare_words a b ↔
  freq b < freq a ∨ (freq a = freq b ∧ strcmp (word a) (word b) <= 0).
Proof.
  unfold precedes, wc_compare_words.
  destruct (Z.eqb_spec (freq a) (freq b)); lia.
Qed.

Lemma wc_compare_words_in_int a b :
  0 < freq a <= INT_MAX → 0 < freq b <= INT_MAX →
  - INT_MAX <= wc_compare_words a b <= INT_MAX.
Proof.
  intros ??. unfold wc_compare_words. case_match; [|lia].
  destruct (strcmp_sign (word a) (word b)) as [->|[->| ->]]; unfold INT_MAX; lia.
Qed.

Global Instance precedes_wc_total : Total (precedes wc_compare_words).
Proof.
  intros a b. rewrite !precedes_wc, (strcmp_flip (word a) (word b)).
  destruct (strcmp_sign (word a) (word b)) as [?|[?|?]]; lia.
Qed.

Global Instance precedes_wc_trans : Transitive (precedes wc_compare_words).
Proof.
  intros a b c. rewrite !precedes_wc.
  intros [?|[? ?]] [?|[? ?]]; try lia.
  right. split; [lia|]. by eapply strcmp_trans.
Qed.

Global Instance precedes_wc_antisym : AntiSymm (=) (precedes wc_compare_words).
Proof.
  intros [wa fa] [wb fb]. rewrite !precedes_wc. simpl.
  intros [?|[? H1]] [?|[? H2]]; try lia.
  rewrite strcmp_flip in H2.
  assert (E : strcmp wa wb = 0) by lia. apply strcmp_eq in E. by subst.
Qed.

Lemma qsort_sorted (ctxt : wc_Context) :
  Sorted (precedes wc_compare_words) (qsort wc_compare_words ctxt).
Proof. apply Sorted_merge_sort, _. Qed.

Lemma qsort_perm (ctxt : wc_Context) : qsort wc_compare_words ctxt ≡ₚ ctxt.
Proof. apply merge_sort_Permutation. Qed.

(** Whatever algorithm [qsort] runs, it returns this array. *)
Lemma qsort_unique (ctxt sorted : wc_Context) :
  sorted ≡ₚ ctxt → Sorted (precedes wc_compare_words) sorted →
  sorted = qsort wc_compare_words ctxt.
Proof.
  intros Hp Hs. apply (Sorted_unique (precedes wc_compare_words)); [done|apply qsort_sorted|].
  by rewrite qsort_perm.
Qed.

Lemma qsort_sorted_id (ctxt : wc_Context) :
  Sorted (precedes wc_compare_words) ctxt → qsort wc_compare_words ctxt = ctxt.
Proof. intros. symmetry. by apply qsort_unique. Qed.

(** ** What one call of [wc_store_word] does to the table *)

Lemma occurrences_nil w : occurrences w [] = 0.
Proof. done. Qed.

Lemma occurrences_cons w b bufs :
  occurrences w (b :: bufs) = (if decide (b = w) then 1 else 0) + occurrences w bufs.
Proof.
  unfold occurrences. rewrite filter_cons.
  destruct (decide (b = w)); simpl; lia.
Qed.

Lemma occurrences_app w bufs1 bufs2 :
  occurrences w (bufs1 ++ bufs2) = occurrences w bufs1 + occurrences w bufs2.
Proof. unfold occurrences. rewrite filter_app, length_app. lia. Qed.

Lemma occurrences_nonneg w bufs : 0 <= occurrences w bufs.
Proof. unfold occurrences. lia. Qed.

Lemma occurrences_le_length w bufs : occurrences w bufs <= Z.of_nat (length bufs).
Proof. unfold occurrences. pose proof (length_filter (λ b, b = w) bufs). lia. Qed.

Lemma occurrences_pos w bufs : 0 < occurrences w bufs ↔ w ∈ bufs.
Proof.
  induction bufs as [|b bufs IH]; [rewrite occurrences_nil; set_solver by lia|].
  rewrite occurrences_cons, elem_of_cons. pose proof (occurrences_nonneg w bufs).
  destruct (decide (b = w)) as [E|E]; [split; [by left|lia]|].
  rewrite <- IH. split; [lia|]. intros [?|?]; [done|lia].
Qed.

Global Instance occurrences_perm w : Proper ((≡ₚ) ==> (=)) (occurrences w).
Proof. intros l1 l2 H. unfold occurrences. by rewrite H. Qed.

Lemma wc_count_app ctxt1 ctxt2 w :
  wc_count (ctxt1 ++ ctxt2) w = wc_count ctxt1 w + wc_count ctxt2 w.
Proof. induction ctxt1 as [|e r IH]; simpl; [done|rewrite IH; lia]. Qed.

Global Instance wc_count_perm : Proper ((≡ₚ) ==> (=) ==> (=)) wc_count.
Proof.
  intros l1 l2 H w ? <-. induction H; simpl; lia.
Qed.

Lemma wc_count_absent ctxt w : w ∉ word <$> ctxt → wc_count ctxt w = 0.
Proof.
  induction ctxt as [|e r IH]; simpl; [done|].
  rewrite not_elem_of_cons. intros [? ?]. rewrite IH by done.
  by destruct (decide (word e = w)).
Qed.

Lemma wc_count_insert ctxt j e e' w :
  ctxt !! j = Some e → word e' = word e →
  wc_count (<[j := e']> ctxt) w =
  wc_count ctxt w + (if decide (word e = w) then freq e' - freq e else 0).
Proof.
  revert j. induction ctxt as [|x r IH]; intros [|j]; simpl; try done.
  - intros [= ->] ->. destruct (decide (word e = w)); lia.
  - intros H Hw. rewrite (IH j H Hw). lia.
Qed.

(** In a well-formed table the count of an entry's word is that entry's
    [freq]. *)
Lemma wc_count_entry ctxt e :
  NoDup (word <$> ctxt) → e ∈ ctxt → wc_count ctxt (word e) = freq e.
Proof.
  induction ctxt as [|x r IH]; simpl; [by rewrite elem_of_nil|].
  rewrite NoDup_cons, elem_of_cons. intros [Hx Hr] [->|He].
  - rewrite decide_True by done. rewrite wc_count_absent; [lia|done].
  - rewrite IH by done. destruct (decide (word x = word e)) as [E|]; [|lia].
    exfalso. apply Hx. rewrite E. by apply list_elem_of_fmap_2.
Qed.

Lemma wc_count_nonneg ctxt w : Forall (λ e, 0 < freq e) ctxt → 0 <= wc_count ctxt w.
Proof.
  induction 1 as [|e r He _ IH]; simpl; [done|]. destruct (decide (word e = w)); lia.
Qed.

Lemma wc_count_pos ctxt w :
  Forall (λ e, 0 < freq e) ctxt → (0 < wc_count ctxt w ↔ w ∈ word <$> ctxt).
Proof.
  intros Hpos. split.
  - intros H. destruct (decide (w ∈ word <$> ctxt)) as [|Hn]; [done|].
    apply wc_count_absent in Hn. lia.
  - induction Hpos as [|e r He Hr IH]; simpl; [by rewrite elem_of_nil|].
    pose proof (wc_count_nonneg r w Hr).
    rewrite elem_of_cons. destruct (decide (word e = w)); [lia|].
    intros [?|?]; [congruence|]. specialize (IH ltac:(done)). lia.
Qed.

(** The lookup loop returns -1 when no entry holds [buf], and otherwise the
    index of an entry that does. *)
Lemma wc_lookup_from_spec slots : ∀ i buf found,
  ((buf ∉ word <$> slots) ∧ wc_lookup_from i slots buf found = found) ∨
  (∃ (j : nat) e, slots !! j = Some e ∧ word e = buf ∧
                  wc_lookup_from i slots buf found = i + Z.of_nat j).
Proof.
  induction slots as [|x r IH]; intros i buf found; simpl.
  { left. split; [apply not_elem_of_nil|done]. }
  destruct (IH (i + 1) buf (if strcmp (word x) buf =? 0 then i else found))
    as [[Hn ->]|(j & e & Hj & He & ->)].
  - destruct (Z.eqb_spec (strcmp (word x) buf) 0) as [E|E].
    + apply strcmp_eq in E. right. exists 0%nat, x. split_and!; [done..|lia].
    + left. split; [|done]. rewrite not_elem_of_cons. split; [|done].
      intros ->. by rewrite strcmp_refl in E.
  - right. exists (S j), e. split_and!; [done..|lia].
Qed.

Lemma wc_lookup_spec (ctxt : wc_Context) buf :
  ((buf ∉ word <$> ctxt) ∧ wc_lookup ctxt buf = -1) ∨
  (∃ (j : nat) e, ctxt !! j = Some e ∧ word e = buf ∧
                  wc_lookup ctxt buf = Z.of_nat j).
Proof.
  destruct (wc_lookup_from_spec ctxt 0 buf (-1)) as [?|(j & e & ? & ? & ?)];
    [by left|right; eauto].
Qed.

(** The two cases of [wc_store_word], with the conditions under which each
    is defined. *)
Lemma wc_store_word_spec (ctxt : wc_Context) buf :
  ((buf ∉ word <$> ctxt) ∧
   wc_store_word ctxt buf =
     if WORDS_CAP <=? len ctxt then Undefined (TableOverrun (len ctxt))
     else if WORD_CAP <=? strlen buf then Undefined (WordFieldOverrun (strlen buf))
     else Done (ctxt ++ [{| word := buf; freq := 1 |}])) ∨
  (∃ (j : nat) e, ctxt !! j = Some e ∧ word e = buf ∧
     wc_store_word ctxt buf =
       if INT_MAX <=? freq e then Undefined CounterOverflow
       else Done (<[j := {| word := buf; freq := freq e + 1 |}]> ctxt)).
Proof.
  unfold wc_store_word, wc_store_found.
  destruct (wc_lookup_spec ctxt buf) as [[Hn ->]|(j & e & Hj & He & ->)].
  - by left.
  - right. exists j, e. split_and!; [done..|].
    destruct (Z.eqb_spec (Z.of_nat j) (-1)); [lia|].
    by rewrite Nat2Z.id, Hj, He.
Qed.

(** A defined store keeps the table well formed and adds one to the count
    of [buf], and to no other count. *)
Lemma wc_store_word_count ctxt buf ctxt' :
  wc_store_word ctxt buf = Done ctxt' → wc_wf ctxt →
  wc_wf ctxt' ∧ ∀ w, wc_count ctxt' w = wc_count ctxt w + (if decide (buf = w) then 1 else 0).
Proof.
  intros Hs [Hnd Hpos].
  destruct (wc_store_word_spec ctxt buf) as [[Hn E]|(j & e & Hj & He & E)];
    rewrite E in Hs; clear E.
  - repeat case_match; simplify_eq. split; [split|].
    + rewrite fmap_app. simpl. apply NoDup_app. split_and!; [done| |apply NoDup_singleton].
      intros w Hw ->%list_elem_of_singleton. done.
    + apply Forall_app. split; [done|]. by repeat constructor.
    + intros w. rewrite wc_count_app. simpl. destruct (decide (buf = w)); lia.
  - case_match; simplify_eq. split; [split|].
    + rewrite list_fmap_insert. simpl.
      rewrite list_insert_id; [done|]. by rewrite list_lookup_fmap, Hj.
    + apply Forall_insert; [done|]. simpl.
      pose proof (Forall_lookup_1 _ _ _ _ Hpos Hj) as H0. simpl in H0. lia.
    + intros w. rewrite (wc_count_insert _ _ e) by done. simpl.
      repeat case_decide; lia.
Qed.

(** ** A sequence of calls of the callback *)

Global Instance wc_wf_perm : Proper ((≡ₚ) ==> iff) wc_wf.
Proof. intros l1 l2 H. unfold wc_wf. by rewrite H. Qed.

Global Instance wc_bounded_perm : Proper ((≡ₚ) ==> iff) wc_bounded.
Proof. intros l1 l2 H. unfold wc_bounded, len. by rewrite H. Qed.

Lemma wc_store_word_bounded ctxt buf ctxt' :
  wc_store_word ctxt buf = Done ctxt' → wc_bounded ctxt → wc_bounded ctxt'.
Proof.
  intros Hs [Hlen Hall]. unfold wc_bounded, len in *.
  destruct (wc_store_word_spec ctxt buf) as [[Hn E]|(j & e & Hj & He & E)];
    rewrite E in Hs; clear E; repeat case_match; simplify_eq.
  - rewrite length_app. simpl. unfold len in *. split; [lia|].
    apply Forall_app. split; [done|]. repeat constructor; simpl; unfold INT_MAX; lia.
  - rewrite length_insert. split; [done|]. apply Forall_insert; [done|]. simpl.
    pose proof (Forall_lookup_1 _ _ _ _ Hall Hj) as H0. simpl in H0. lia.
Qed.

Lemma wc_new_word_callback_spec buf ctxt ctxt' :
  wc_new_word_callback buf ctxt = Done ctxt' → wc_wf ctxt →
  wc_wf ctxt' ∧ Sorted (precedes wc_compare_words) ctxt' ∧
  (wc_bounded ctxt → wc_bounded ctxt') ∧
  ∀ w, wc_count ctxt' w = wc_count ctxt w + (if decide (buf = w) then 1 else 0).
Proof.
  unfold wc_new_word_callback. intros H Hwf.
  destruct (wc_store_word ctxt buf) as [c1|] eqn:E; simplify_eq/=.
  destruct (wc_store_word_count _ _ _ E Hwf) as [Hwf1 Hc].
  split_and!.
  - by rewrite qsort_perm.
  - apply qsort_sorted.
  - rewrite qsort_perm. by eapply wc_store_word_bounded.
  - intros w. rewrite qsort_perm. apply Hc.
Qed.

Lemma wc_record_all_app bufs1 bufs2 ctxt :
  wc_record_all (bufs1 ++ bufs2) ctxt =
  (ctxt' ← wc_record_all bufs1 ctxt; wc_record_all bufs2 ctxt').
Proof.
  revert ctxt. induction bufs1 as [|b r IH]; intros ctxt; simpl; [done|].
  destruct (wc_new_word_callback b ctxt); simpl; [apply IH|done].
Qed.

Lemma wc_record_all_spec bufs : ∀ ctxt ctxt',
  wc_record_all bufs ctxt = Done ctxt' → wc_wf ctxt →
  wc_wf ctxt' ∧ (wc_bounded ctxt → wc_bounded ctxt') ∧
  (Sorted (precedes wc_compare_words) ctxt → Sorted (precedes wc_compare_words) ctxt') ∧
  ∀ w, wc_count ctxt' w = wc_count ctxt w + occurrences w bufs.
Proof.
  induction bufs as [|b r IH]; intros ctxt ctxt' H Hwf; simpl in H.
  { simplify_eq. split_and!; [done..|]. intros w. rewrite occurrences_nil. lia. }
  destruct (wc_new_word_callback b ctxt) as [c1|] eqn:E; simplify_eq/=.
  destruct (wc_new_word_callback_spec _ _ _ E Hwf) as (Hwf1 & Hs1 & Hb1 & Hc1).
  destruct (IH _ _ H Hwf1) as (Hwf' & Hb' & Hs' & Hc').
  split_and!; [done|auto|auto|].
  intros w. rewrite Hc', Hc1, occurrences_cons. lia.
Qed.

Lemma wc_wf_nil : wc_wf [].
Proof. split; constructor. Qed.

Lemma wc_bounded_nil : wc_bounded [].
Proof. split; [unfold len, WORDS_CAP; simpl; lia|constructor]. Qed.

(** A well-formed table is determined, up to the order of its entries, by
    the counts it holds. *)
Lemma wc_count_determines (ctxt1 ctxt2 : wc_Context) :
  wc_wf ctxt1 → wc_wf ctxt2 →
  (∀ w, wc_count ctxt1 w = wc_count ctxt2 w) → ctxt1 ≡ₚ ctxt2.
Proof.
  assert (Hsub : ∀ c1 c2 : wc_Context, wc_wf c1 → wc_wf c2 →
            (∀ w, wc_count c1 w = wc_count c2 w) → ∀ e, e ∈ c1 → e ∈ c2).
  { intros c1 c2 [Hnd1 Hpos1] [Hnd2 Hpos2] Hc e He.
    assert (Hf : wc_count c1 (word e) = freq e) by by apply wc_count_entry.
    assert (Hin : word e ∈ word <$> c2).
    { apply wc_count_pos; [done|]. rewrite <- Hc, Hf.
      by apply (proj1 (Forall_forall _ _) Hpos1). }
    apply list_elem_of_fmap in Hin as (e' & Hw & He').
    pose proof (wc_count_entry c2 e' Hnd2 He') as Hf'.
    rewrite <- Hw, <- Hc, Hf in Hf'.
    destruct e, e'; simpl in *; by subst. }
  intros Hwf1 Hwf2 Hc. apply NoDup_Permutation.
  - eapply NoDup_fmap_1, Hwf1.
  - eapply NoDup_fmap_1, Hwf2.
  - intros e. split; apply Hsub; auto.
Qed.

(** So a sorted well-formed table is determined by its counts alone. *)
Lemma wc_count_determines_sorted (ctxt1 ctxt2 : wc_Context) :
  wc_wf ctxt1 → wc_wf ctxt2 →
  Sorted (precedes wc_compare_words) ctxt1 → Sorted (precedes wc_compare_words) ctxt2 →
  (∀ w, wc_count ctxt1 w = wc_count ctxt2 w) → ctxt1 = ctxt2.
Proof.
  intros ?? Hs1 Hs2 Hc.
  apply (Sorted_unique (precedes wc_compare_words)); [done..|].
  by apply wc_count_determines.
Qed.

(** ** When a sequence of calls is defined *)

Lemma fits_occurrences bufs w : fits bufs → occurrences w bufs <= INT_MAX.
Proof.
  intros (_ & _ & H). destruct (decide (w ∈ bufs)) as [Hin|Hn].
  - by apply (proj1 (Forall_forall _ _) H).
  - pose proof (occurrences_nonneg w bufs).
    destruct (decide (0 < occurrences w bufs)) as [Hp|Hp];
      [by apply occurrences_pos in Hp|unfold INT_MAX; lia].
Qed.

Lemma wc_count_words ctxt done w :
  wc_wf ctxt → (∀ w, wc_count ctxt w = occurrences w done) →
  w ∈ word <$> ctxt ↔ w ∈ done.
Proof.
  intros [_ Hpos] Hc. by rewrite <- wc_count_pos, Hc, occurrences_pos.
Qed.

Lemma wc_record_all_defined bufs : ∀ done ctxt,
  wc_wf ctxt → (∀ w, wc_count ctxt w = occurrences w done) →
  fits (done ++ bufs) → ∃ ctxt', wc_record_all bufs ctxt = Done ctxt'.
Proof.
  induction bufs as [|b r IH]; intros done ctxt Hwf Hc Hfit; simpl; [eauto|].
  assert (∃ c1, wc_store_word ctxt b = Done c1) as [c1 E].
  { pose proof Hfit as (Hdist & Hshort & _).
    destruct (wc_store_word_spec ctxt b) as [[Hn ->]|(j & e & Hj & He & ->)].
    - assert (strlen b < WORD_CAP).
      { apply (proj1 (Forall_forall _ _) Hshort). set_solver. }
      assert (len ctxt < WORDS_CAP).
      { assert (Hsub : b :: (word <$> ctxt) ⊆+ remove_dups (done ++ b :: r)).
        { apply NoDup_submseteq.
          - apply NoDup_cons. split; [done|apply Hwf].
          - intros w. rewrite elem_of_remove_dups, elem_of_cons, elem_of_app, elem_of_cons.
            intros [->|Hw]; [auto|]. left. by eapply wc_count_words. }
        apply submseteq_length in Hsub. simpl in Hsub. rewrite length_fmap in Hsub.
        unfold len. lia. }
      repeat case_match; try lia. eauto.
    - assert (freq e < INT_MAX); [|case_match; [lia|eauto]].
      assert (He' : e ∈ ctxt) by by eapply list_elem_of_lookup_2.
      pose proof (wc_count_entry ctxt e (proj1 Hwf) He') as Hf.
      rewrite He, Hc in Hf.
      assert (Hle : occurrences b (done ++ b :: r) <= INT_MAX).
      { by apply fits_occurrences. }
      pose proof (occurrences_nonneg b r).
      rewrite occurrences_app, occurrences_cons, decide_True in Hle by done. lia. }
  unfold wc_new_word_callback. rewrite E. simpl.
  destruct (wc_store_word_count _ _ _ E Hwf) as [Hwf1 Hc1].
  apply (IH (done ++ [b])).
  - by rewrite qsort_perm.
  - intros w. rewrite qsort_perm, Hc1, Hc, occurrences_app, occurrences_cons, occurrences_nil.
    lia.
  - by rewrite <- app_assoc.
Qed.

(** A table that holds the counts of [bufs] and is inside its bounds shows
    that [bufs] fits. *)
Lemma wc_bounded_fits ctxt bufs :
  wc_wf ctxt → wc_bounded ctxt → (∀ w, wc_count ctxt w = occurrences w bufs) →
  fits bufs.
Proof.
  intros Hwf [Hlen Hall] Hc.
  assert (Hent : ∀ b, b ∈ bufs → ∃ e, e ∈ ctxt ∧ word e = b).
  { intros b Hb. apply (wc_count_words ctxt bufs b Hwf Hc) in Hb.
    apply list_elem_of_fmap in Hb as (e & -> & He). eauto. }
  split_and!.
  - assert (Hsub : remove_dups bufs ⊆+ word <$> ctxt).
    { apply NoDup_submseteq; [apply NoDup_remove_dups|].
      intros w. rewrite elem_of_remove_dups. by rewrite (wc_count_words ctxt bufs). }
    apply submseteq_length in Hsub. rewrite length_fmap in Hsub. unfold len in Hlen. lia.
  - apply Forall_forall. intros b (e & He & <-)%Hent.
    by apply (proj1 (Forall_forall _ _) Hall).
  - apply Forall_forall. intros b (e & He & <-)%Hent.
    rewrite <- Hc, wc_count_entry by (done || apply Hwf).
    by apply (proj1 (Forall_forall _ _) Hall).
Qed.

Global Instance fits_perm : Proper ((≡ₚ) ==> iff) fits.
Proof.
  assert (∀ l1 l2, l1 ≡ₚ l2 → fits l1 → fits l2) as Himp.
  { intros l1 l2 H (Hd & Hs & Ho). split_and!.
    - assert (Hp : remove_dups l2 ≡ₚ remove_dups l1).
      { apply NoDup_Permutation; [apply NoDup_remove_dups..|].
        intros w. by rewrite !elem_of_remove_dups, H. }
      by rewrite Hp.
    - by rewrite <- H.
    - rewrite <- H. eapply Forall_impl; [exact Ho|]. intros b. simpl. by rewrite H. }
  intros l1 l2 H. split; apply Himp; [done|by symmetry].
Qed.

(** The calls are defined exactly when the words fit. *)
Lemma wc_record_all_fits bufs :
  fits bufs ↔ ∃ ctxt, wc_record_all bufs [] = Done ctxt.
Proof.
  split.
  - intros Hfit. apply (wc_record_all_defined bufs []); [apply wc_wf_nil|done|done].
  - intros [ctxt H].
    destruct (wc_record_all_spec _ _ _ H wc_wf_nil) as (Hwf & Hb & _ & Hc).
    apply (wc_bounded_fits ctxt); [done|apply Hb, wc_bounded_nil|].
    intros w. rewrite Hc. simpl. lia.
Qed.

(** The final table depends only on how often each word was recorded, not
    on the order of the calls. *)
Lemma wc_record_all_perm bufs1 bufs2 ctxt :
  bufs1 ≡ₚ bufs2 → wc_record_all bufs1 [] = Done ctxt →
  wc_record_all bufs2 [] = Done ctxt.
Proof.
  intros Hp H1.
  assert (fits bufs2) as [c2 H2]%wc_record_all_fits.
  { rewrite <- Hp. apply wc_record_all_fits. eauto. }
  rewrite H2. f_equal.
  destruct (wc_record_all_spec _ _ _ H1 wc_wf_nil) as (Hwf1 & _ & Hs1 & Hc1).
  destruct (wc_record_all_spec _ _ _ H2 wc_wf_nil) as (Hwf2 & _ & Hs2 & Hc2).
  apply wc_count_determines_sorted; [done|done|apply Hs2; constructor|apply Hs1; constructor|].
  intros w. by rewrite Hc1, Hc2, Hp.
Qed.

(** ** The invariant of the frequency table *)

Lemma wc_record_all_tallies bufs ctxt :
  wc_record_all bufs [] = Done ctxt → tallies bufs ctxt.
Proof.
  intros H. destruct (wc_record_all_spec _ _ _ H wc_wf_nil) as (Hwf & _ & _ & Hc).
  assert (Hc' : ∀ w, wc_count ctxt w = occurrences w bufs).
  { intros w. rewrite Hc. simpl. lia. }
  split_and!.
  - apply Hwf.
  - intros w. by rewrite (wc_count_words ctxt bufs).
  - intros e He. rewrite <- Hc'. symmetry. apply wc_count_entry; [apply Hwf|done].
Qed.

Lemma occurrences_replicate w n : occurrences w (replicate n w) = Z.of_nat n.
Proof.
  induction n as [|n IH]; [done|].
  change (replicate (S n) w) with (w :: replicate n w).
  rewrite occurrences_cons, IH, decide_True by done. lia.
Qed.

(** A word recorded once more than [INT_MAX] times: the counter overflows
    on the way, so the calls are not all defined. *)
Lemma wc_record_all_counter_overflow w :
  ¬ ∃ ctxt, wc_record_all (replicate (Z.to_nat (INT_MAX + 1)) w) [] = Done ctxt.
Proof.
  intros H. apply wc_record_all_fits in H.
  apply (fits_occurrences _ w) in H. rewrite occurrences_replicate in H.
  rewrite Z2Nat.id in H; unfold INT_MAX in *; lia.
Qed.

(** C1, as stated, fails: the 129th distinct word is stored to
    [words[128]], one past the end of the array, so the call sequence has no
    defined table after it; neither has a call with a word of 128 letters,
    which [strcpy] copies past the end of [word[128]]. *)
Lemma record_occurrence_overruns_table :
  is_done (wc_record_all (distinct_words 128) []) = true ∧
  wc_record_all (distinct_words 129) [] = Undefined (TableOverrun 128) ∧
  wc_record_all [letters "a" 128] [] = Undefined (WordFieldOverrun 128) ∧
  ¬ ∃ ctxt, wc_record_all (distinct_words 129) [] = Done ctxt ∧
            tallies (distinct_words 129) ctxt.
Proof.
  assert (E : wc_record_all (distinct_words 129) [] = Undefined (TableOverrun 128))
    by (vm_compute; reflexivity).
  split_and!; [vm_compute; reflexivity|exact E|vm_compute; reflexivity|].
  intros (ctxt & H & _). rewrite E in H. discriminate.
Qed.

(** C1 (amended): for every sequence of record-occurrence calls from the
    empty table that fits the program's fixed capacities (at most 128
    distinct words, each shorter than 128 bytes, none recorded more than
    INT_MAX times), every call is defined and the table after each call
    holds each distinct word in exactly one entry whose count is the number
    of times the word has been recorded so far; the call inserts an absent
    word with count 1, increments the count of a present word by 1, and
    leaves every other entry as it was. *)
Theorem record_occurrence_tallies (bufs : list string) (buf : string) :
  fits (bufs ++ [buf]) →
  ∃ ctxt ctxt',
    wc_record_all bufs [] = Done ctxt ∧
    wc_new_word_callback buf ctxt = Done ctxt' ∧
    wc_record_all (bufs ++ [buf]) [] = Done ctxt' ∧
    tallies bufs ctxt ∧ tallies (bufs ++ [buf]) ctxt' ∧
    ((buf ∉ word <$> ctxt) → {| word := buf; freq := 1 |} ∈ ctxt') ∧
    (∀ e, e ∈ ctxt → word e = buf → {| word := buf; freq := freq e + 1 |} ∈ ctxt') ∧
    (∀ e, e ∈ ctxt → word e ≠ buf → e ∈ ctxt').
Proof.
  intros Hfit. apply wc_record_all_fits in Hfit as [ctxt' H'].
  pose proof H' as H. rewrite wc_record_all_app in H.
  destruct (wc_record_all bufs []) as [ctxt|] eqn:E; [|done]. simpl in H.
  destruct (wc_new_word_callback buf ctxt) as [c1|] eqn:Ec; [|done]. simpl in H.
  simplify_eq. exists ctxt, ctxt'. split_and!; [done..| | | | |].
  - by apply wc_record_all_tallies.
  - by apply wc_record_all_tallies.
  - intros Hn. unfold wc_new_word_callback in Ec.
    destruct (wc_store_word_spec ctxt buf) as [[_ Es]|(j & e & Hj & He & _)].
    + rewrite Es in Ec. repeat case_match; simplify_eq/=.
      rewrite qsort_perm. set_solver.
    + exfalso. apply Hn. rewrite <- He.
      eapply list_elem_of_fmap_2, list_elem_of_lookup_2, Hj.
  - intros e He Hw. unfold wc_new_word_callback in Ec.
    destruct (wc_record_all_tallies _ _ E) as (Hnd & _ & _).
    destruct (wc_store_word_spec ctxt buf) as [[Hn _]|(j & e' & Hj & He' & Es)].
    + exfalso. apply Hn. rewrite <- Hw. by apply list_elem_of_fmap_2.
    + assert (e' = e) as ->.
      { apply list_elem_of_lookup_2 in Hj.
        pose proof (wc_count_entry ctxt e Hnd He) as H1.
        pose proof (wc_count_entry ctxt e' Hnd Hj) as H2.
        rewrite Hw, <- He', H2 in H1. destruct e, e'; simpl in *; congruence. }
      rewrite Es in Ec. case_match; simplify_eq/=. rewrite qsort_perm.
      apply list_elem_of_lookup. exists j. apply list_lookup_insert_eq.
      by eapply lookup_lt_Some.
  - intros e He Hw. unfold wc_new_word_callback in Ec.
    destruct (wc_store_word_spec ctxt buf) as [[Hn Es]|(j & e' & Hj & He' & Es)];
      rewrite Es in Ec; repeat case_match; simplify_eq/=; rewrite qsort_perm.
    + set_solver.
    + apply list_elem_of_lookup in He as [k Hk]. apply list_elem_of_lookup. exists k.
      rewrite list_lookup_insert_ne; [done|]. intros ->. simplify_eq.
Qed.

Lemma record_occurrence_tallies_witness :
  fits (["the"; "cat"]%string ++ ["the"%string]) ∧
  ∃ ctxt ctxt',
    wc_record_all ["the"; "cat"]%string [] = Done ctxt ∧
    wc_new_word_callback "the" ctxt = Done ctxt' ∧
    wc_record_all (["the"; "cat"]%string ++ ["the"%string]) [] = Done ctxt' ∧
    tallies ["the"; "cat"]%string ctxt ∧
    tallies (["the"; "cat"]%string ++ ["the"%string]) ctxt' ∧
    (("the"%string ∉ word <$> ctxt) → {| word := "the"; freq := 1 |} ∈ ctxt') ∧
    (∀ e, e ∈ ctxt → word e = "the"%string →
          {| word := "the"; freq := freq e + 1 |} ∈ ctxt') ∧
    (∀ e, e ∈ ctxt → word e ≠ "the"%string → e ∈ ctxt').
Proof.
  assert (Hfit : fits (["the"; "cat"]%string ++ ["the"%string])).
  { apply (bool_decide_unpack _). vm_compute. reflexivity. }
  split; [exact Hfit|].
  exact (record_occurrence_tallies ["the"; "cat"]%string "the"%string Hfit).
Defined.

(** ** The order of the report *)

Lemma precedes_report_before a b :
  precedes wc_compare_words a b → word a ≠ word b → report_before a b.
Proof.
  rewrite precedes_wc. intros [?|[? Hs]] Hne; [by left|right].
  split; [done|]. apply strcmp_lt.
  destruct (strcmp_sign (word a) (word b)) as [?|[E|?]]; [lia| |lia].
  by apply strcmp_eq in E.
Qed.

Lemma sorted_report_before (ctxt : wc_Context) :
  NoDup (word <$> ctxt) → Sorted (precedes wc_compare_words) ctxt →
  StronglySorted report_before ctxt.
Proof.
  intros Hnd Hs. apply Sorted_StronglySorted in Hs; [|apply _].
  induction Hs as [|e r Hr IH Hall]; [constructor|].
  simpl in Hnd. apply NoDup_cons in Hnd as [Hn Hnd].
  constructor; [by apply IH|].
  apply Forall_forall. intros x Hx.
  apply precedes_report_before; [by apply (proj1 (Forall_forall _ _) Hall)|].
  intros E. apply Hn. rewrite E. by apply list_elem_of_fmap_2.
Qed.

(** C4: the table that [wc_print_words] prints is, after any sequence of
    calls of the callback, ordered by descending count with ties broken by
    ascending lexicographic order of the word, and the report lists the
    entries in that order; when the recorded words are three "a", three
    "b" and five "c", in any order, the table is exactly
    [("c",5); ("a",3); ("b",3)]. *)
Theorem report_descending_count_then_word (bufs : list string) (ctxt : wc_Context) :
  wc_record_all bufs [] = Done ctxt →
  StronglySorted report_before ctxt ∧
  wc_print_words ctxt = wc_header :: (wc_entry <$> ctxt) ++ [wc_separator] ∧
  (bufs ≡ₚ ["a"; "a"; "a"; "b"; "b"; "b"; "c"; "c"; "c"; "c"; "c"]%string →
   ctxt = [ {| word := "c"; freq := 5 |}; {| word := "a"; freq := 3 |};
            {| word := "b"; freq := 3 |} ]).
Proof.
  intros H. split_and!.
  - destruct (wc_record_all_spec _ _ _ H wc_wf_nil) as ([Hnd _] & _ & Hs & _).
    apply sorted_report_before; [done|]. apply Hs. constructor.
  - done.
  - intros Hp. apply (wc_record_all_perm _ _ _ Hp) in H.
    vm_compute in H. by simplify_eq.
Qed.

Lemma report_descending_count_then_word_witness :
  wc_record_all ["b"; "c"; "a"; "c"; "b"; "a"; "c"; "c"; "a"; "b"; "c"]%string [] =
    Done [ {| word := "c"; freq := 5 |}; {| word := "a"; freq := 3 |};
           {| word := "b"; freq := 3 |} ] ∧
  StronglySorted report_before
    [ {| word := "c"; freq := 5 |}; {| word := "a"; freq := 3 |};
      {| word := "b"; freq := 3 |} ].
Proof.
  split; [vm_compute; reflexivity|].
  apply (report_descending_count_then_word
           ["b"; "c"; "a"; "c"; "b"; "a"; "c"; "c"; "a"; "b"; "c"]%string).
  vm_compute. reflexivity.
Defined.

(** ** A full table *)

(** The store of a new word into a table of 128 entries goes to
    [words[128]]. *)
Lemma wc_store_word_full (ctxt : wc_Context) (buf : string) :
  len ctxt = WORDS_CAP → (buf ∉ word <$> ctxt) →
  wc_store_word ctxt buf = Undefined (TableOverrun 128).
Proof.
  intros Hlen Hn.
  destruct (wc_store_word_spec ctxt buf) as [[_ ->]|(j & e & Hj & He & _)].
  - rewrite Hlen. done.
  - exfalso. apply Hn. rewrite <- He.
    eapply list_elem_of_fmap_2, list_elem_of_lookup_2, Hj.
Qed.

(** C6 (what the code does instead): when the table holds 128 distinct
    words and the recorded word is not among them, [wc_store_word] writes the
    new entry to [words[128]], past the end of the array, which is
    undefined behaviour; nothing is dropped or grown, and
    [wc_new_word_callback] inherits the fault. *)
Theorem store_into_full_table_undefined (ctxt : wc_Context) (buf : string) :
  len ctxt = WORDS_CAP → (buf ∉ word <$> ctxt) →
  wc_store_word ctxt buf = Undefined (TableOverrun 128) ∧
  wc_new_word_callback buf ctxt = Undefined (TableOverrun 128).
Proof.
  intros Hlen Hn. unfold wc_new_word_callback.
  by rewrite (wc_store_word_full ctxt buf Hlen Hn).
Qed.

Lemma store_into_full_table_undefined_witness :
  wc_record_all (distinct_words 128) [] = Done full_table ∧
  len full_table = WORDS_CAP ∧
  ("overflow"%string ∉ word <$> full_table) ∧
  wc_store_word full_table "overflow" = Undefined (TableOverrun 128) ∧
  wc_new_word_callback "overflow" full_table = Undefined (TableOverrun 128).
Proof.
  assert (Hlen : len full_table = WORDS_CAP) by (vm_compute; reflexivity).
  assert (Hn : "overflow"%string ∉ word <$> full_table).
  { apply (bool_decide_unpack _). vm_compute. reflexivity. }
  split_and!; [vm_compute; reflexivity|exact Hlen|exact Hn|..];
    apply (store_into_full_table_undefined full_table "overflow" Hlen Hn).
Defined.

(** ** The tokenizer *)

Lemma append_comm_cons_str a s1 s2 : String a (s1 +:+ s2) = String a s1 +:+ s2.
Proof. done. Qed.

Lemma is_letter_not_EOF a : is_letter a = true → int_to_char (uchar a) ≠ EOF.
Proof. unfold is_letter. intros H E. rewrite E in H. done. Qed.

(** One turn of the loop, as the source has it. *)
Lemma wc_read_loop_getc {S} (callback : string → S → outcome S) fd state i buf ctxt :
  wc_read_loop callback fd state i buf ctxt =
  let c := int_to_char (getc fd).1 in
  let rest := (getc fd).2 in
  if c =? EOF then Done ctxt
  else if negb (isalpha (to_uchar c)) then
    if state =? WC_IN_WORD then
      buf' ← buf_store buf i 0;
      ctxt' ← callback (c_str buf') ctxt;
      wc_read_loop callback rest WC_OUT_OF_WORD 0 buf' ctxt'
    else wc_read_loop callback rest WC_OUT_OF_WORD 0 buf ctxt
  else
    let state' := if state =? WC_OUT_OF_WORD then WC_IN_WORD else state in
    buf' ← buf_store buf i (int_to_char (tolower (to_uchar c)));
    wc_read_loop callback rest state' (i + 1) buf' ctxt.
Proof. by destruct fd. Qed.

(** The C string in a buffer with a NUL at [n] depends on the cells up to
    [n] only. *)
Lemma c_str_agree (n : nat) : ∀ b1 b2 : list Z,
  take (S n) b1 = take (S n) b2 → b1 !! n = Some 0 → c_str b1 = c_str b2.
Proof.
  induction n as [|n IH]; intros [|x r1] [|y r2] Ht Hn; try done.
  - by simplify_eq/=.
  - injection Ht as -> Ht. simpl in Hn. simpl.
    destruct (y =? 0); [done|]. f_equal. by apply IH.
Qed.

Lemma take_insert_agree (b1 b2 : list Z) (i : nat) c :
  take i b1 = take i b2 → (i < length b1)%nat → (i < length b2)%nat →
  take (S i) (<[i := c]> b1) = take (S i) (<[i := c]> b2).
Proof.
  intros Ht H1 H2.
  rewrite (take_S_r (<[i := c]> b1) i c) by by apply list_lookup_insert_eq.
  rewrite (take_S_r (<[i := c]> b2) i c) by by apply list_lookup_insert_eq.
  by rewrite !take_insert_ge, Ht by lia.
Qed.

(** The cells of [buf] at and beyond [i] are written before they are read:
    the reader does the same whatever they hold. *)
Lemma wc_read_loop_junk {C} (callback : string → C → outcome C) fd :
  ∀ state i (b1 b2 : list Z) ctxt,
    0 <= i → length b1 = 128%nat → length b2 = 128%nat →
    take (Z.to_nat i) b1 = take (Z.to_nat i) b2 →
    wc_read_loop callback fd state i b1 ctxt =
    wc_read_loop callback fd state i b2 ctxt.
Proof.
  induction fd as [|a fd IH]; intros state i b1 b2 ctxt Hi H1 H2 Ht; [done|].
  cbn [wc_read_loop]. cbv zeta.
  destruct (int_to_char (uchar a) =? EOF); [done|].
  assert (Hnext : ∀ c, take (S (Z.to_nat i)) (<[Z.to_nat i := c]> b1) =
                       take (S (Z.to_nat i)) (<[Z.to_nat i := c]> b2) ∨
                       ¬ (i < WORD_CAP)).
  { intros c. destruct (decide (i < WORD_CAP)); [left|by right].
    apply take_insert_agree; unfold WORD_CAP in *; [done|lia..]. }
  destruct (negb (isalpha _)).
  - destruct (state =? WC_IN_WORD); [|by apply IH].
    unfold buf_store. destruct (Z.leb_spec 0 i); [|lia].
    destruct (Z.ltb_spec i WORD_CAP); [|done]. simpl.
    destruct (Hnext 0) as [Hn|Hn]; [|lia].
    rewrite (c_str_agree (Z.to_nat i) _ _ Hn)
      by (apply list_lookup_insert_eq; unfold WORD_CAP in *; lia).
    destruct (callback _ ctxt); simpl; [|done].
    apply IH; [done|by rewrite length_insert..|done].
  - unfold buf_store. destruct (Z.leb_spec 0 i); [|lia].
    destruct (Z.ltb_spec i WORD_CAP); [|done]. simpl.
    destruct (Hnext (int_to_char (tolower (to_uchar (int_to_char (uchar a))))))
      as [Hn|Hn]; [|lia].
    apply IH; [lia|by rewrite length_insert..|].
    by rewrite Z2Nat.inj_add, Nat.add_1_r by lia.
Qed.

Lemma wc_read_fd_junk {S} (callback : string → S → outcome S) junk1 junk2 fd ctxt :
  wc_read_fd callback junk1 fd ctxt = wc_read_fd callback junk2 fd ctxt.
Proof.
  unfold wc_read_fd. apply wc_read_loop_junk; [done| | |done];
    by rewrite length_fmap, length_seq.
Qed.

(** The loop never reads past a byte 0xFF. *)
Lemma wc_read_loop_ff {S} (callback : string → S → outcome S) pre post :
  ∀ state i buf ctxt,
    wc_read_loop callback (pre +:+ String byte_FF post) state i buf ctxt =
    wc_read_loop callback pre state i buf ctxt.
Proof.
  induction pre as [|a pre IH]; intros state i buf ctxt; [done|].
  rewrite <- !append_comm_cons_str. cbn [wc_read_loop]. cbv zeta.
  repeat case_match; try done; unfold mbind, outcome_bind;
    repeat case_match; try done; apply IH.
Qed.

(** C10: a byte 0xFF in the stream ends the reading.  [getc] returns 255
    for it, the assignment to the [char] variable [c] turns that into -1,
    which is [EOF]; the reader then does exactly what it does when the
    stream ends before that byte, whatever follows the byte. *)
Theorem byte_ff_read_as_end_of_stream {S} (callback : string → S → outcome S)
    (junk : nat → Z) (pre post : string) (ctxt : S) :
  uchar byte_FF = 255 ∧ int_to_char (uchar byte_FF) = EOF ∧
  wc_read_fd callback junk (pre +:+ String byte_FF post) ctxt =
  wc_read_fd callback junk pre ctxt.
Proof. split_and!; [done..|]. apply wc_read_loop_ff. Qed.

Example byte_ff_demo junk :
  wc_words junk ("one two " +:+ String byte_FF " three four ") = Done ["one"; "two"]%string.
Proof. vm_compute. reflexivity. Qed.

(** Letters alone never reach the callback. *)
Lemma wc_read_loop_letters {S} (callback : string → S → outcome S) run :
  all_letters run = true →
  ∀ state i buf ctxt ctxt',
    wc_read_loop callback run state i buf ctxt = Done ctxt' → ctxt' = ctxt.
Proof.
  induction run as [|a run IH]; intros Hl state i buf ctxt ctxt'; simpl in *.
  { congruence. }
  apply andb_prop in Hl as [Ha Hl]. unfold is_letter in Ha. rewrite Ha. simpl.
  case_match; [congruence|].
  destruct (buf_store _ _ _); simpl; [|done]. by apply IH.
Qed.

(** A run of letters at the end of the stream changes nothing: whatever the
    reader has done with the stream and the run, it has done with the stream
    alone. *)
Lemma wc_read_loop_trailing {S} (callback : string → S → outcome S) fd run :
  all_letters run = true →
  ∀ state i buf ctxt ctxt',
    wc_read_loop callback (fd +:+ run) state i buf ctxt = Done ctxt' →
    wc_read_loop callback fd state i buf ctxt = Done ctxt'.
Proof.
  intros Hl. induction fd as [|a fd IH]; intros state i buf ctxt ctxt' H.
  { simpl in *. f_equal. symmetry. by eapply wc_read_loop_letters. }
  rewrite <- append_comm_cons_str in H. cbn [wc_read_loop] in *. cbv zeta in *.
  repeat case_match; try done; unfold mbind, outcome_bind in *;
    repeat case_match; try done; by apply IH.
Qed.

Lemma wc_read_fd_trailing {S} (callback : string → S → outcome S) junk fd run ctxt ctxt' :
  all_letters run = true →
  wc_read_fd callback junk (fd +:+ run) ctxt = Done ctxt' →
  wc_read_fd callback junk fd ctxt = Done ctxt'.
Proof. intros Hl. by apply wc_read_loop_trailing. Qed.

(** C3 (what the code does instead): the stream "abc", which ends inside a
    word, never reaches the callback, so the word is neither reported nor
    counted; the same letters followed by a delimiter are. *)
Theorem trailing_word_not_flushed {S} (callback : string → S → outcome S)
    (junk : nat → Z) (ctxt : S) :
  wc_read_fd callback junk "abc" ctxt = Done ctxt ∧
  wc_words junk "abc" = Done [] ∧
  wc_thread_read junk "abc" [] = Done [] ∧
  wc_words junk "abc " = Done ["abc"%string].
Proof. split_and!; vm_compute; reflexivity. Qed.

(** A run of 128 letters followed by one more byte overruns [buf]: by the
    129th letter, or by the terminator that a delimiter stores. *)
Lemma wc_read_loop_overrun {S} (callback : string → S → outcome S) a rest run :
  int_to_char (uchar a) ≠ EOF →
  all_letters run = true →
  ∀ state i buf ctxt,
    0 <= i → i + Z.of_nat (String.length run) = WORD_CAP →
    state = WC_OUT_OF_WORD ∨ state = WC_IN_WORD →
    (0 < i → state = WC_IN_WORD) →
    wc_read_loop callback (run +:+ String a rest) state i buf ctxt =
    Undefined (WordBufferOverrun 128).
Proof.
  intros Ha. induction run as [|b run IH]; intros Hl state i buf ctxt Hi Hlen Hst Hin.
  - simpl in Hlen. assert (i = 128) as -> by (unfold WORD_CAP in *; lia).
    rewrite Hin by lia. simpl.
    destruct (Z.eqb_spec (int_to_char (uchar a)) EOF); [done|].
    by destruct (isalpha _).
  - simpl in Hl, Hlen. apply andb_prop in Hl as [Hb Hl].
    rewrite <- append_comm_cons_str. cbn [wc_read_loop]. cbv zeta.
    destruct (Z.eqb_spec (int_to_char (uchar b)) EOF) as [E|_];
      [by apply is_letter_not_EOF in Hb|].
    unfold is_letter in Hb. rewrite Hb. simpl.
    unfold buf_store.
    destruct (Z.leb_spec 0 i); [|lia].
    destruct (Z.ltb_spec i WORD_CAP); [|unfold WORD_CAP in *; lia]. simpl.
    apply IH; [done|lia|lia| |].
    + destruct Hst as [-> | ->]; auto.
    + intros _. destruct Hst as [-> | ->]; done.
Qed.

(** C7 (what the code does instead): a run of 128 letters that is followed
    by any further byte is neither truncated nor rejected; the reader
    stores to [buf[128]], past the end of the 128-byte buffer, which is
    undefined behaviour. *)
Theorem long_word_overruns_buffer {S} (callback : string → S → outcome S)
    (junk : nat → Z) (run : string) (a : ascii) (rest : string) (ctxt : S) :
  all_letters run = true → String.length run = 128%nat →
  int_to_char (uchar a) ≠ EOF →
  wc_read_fd callback junk (run +:+ String a rest) ctxt =
  Undefined (WordBufferOverrun 128).
Proof.
  intros Hl Hlen Ha. unfold wc_read_fd.
  apply wc_read_loop_overrun; [done|done|lia|rewrite Hlen; done|by left|lia].
Qed.

Lemma long_word_overruns_buffer_witness :
  all_letters (letters "a" 128) = true ∧
  String.length (letters "a" 128) = 128%nat ∧
  int_to_char (uchar " ") ≠ EOF ∧
  wc_read_fd wc_collect (λ _, 0) (letters "a" 128 +:+ String " " EmptyString) [] =
  Undefined (WordBufferOverrun 128).
Proof.
  assert (H1 : all_letters (letters "a" 128) = true) by (vm_compute; reflexivity).
  assert (H2 : String.length (letters "a" 128) = 128%nat) by (vm_compute; reflexivity).
  assert (H3 : int_to_char (uchar " ") ≠ EOF) by (vm_compute; discriminate).
  split_and!; [exact H1|exact H2|exact H3|].
  exact (long_word_overruns_buffer wc_collect (λ _, 0) (letters "a" 128) " "
           EmptyString [] H1 H2 H3).
Defined.

Example long_word_demo junk :
  wc_words junk (letters "a" 129) = Undefined (WordBufferOverrun 128) ∧
  is_done (wc_words junk (letters "a" 127 +:+ " ")) = true.
Proof. split; vm_compute; reflexivity. Qed.

(** ** A reader thread is its words, handed to the callback one by one *)

Lemma wc_read_loop_words fd :
  ∀ state i buf log ws',
    wc_read_loop wc_collect fd state i buf log = Done ws' →
    ∃ ws, ws' = log ++ ws ∧
          ∀ ctxt, wc_read_loop wc_new_word_callback fd state i buf ctxt =
                  wc_record_all ws ctxt.
Proof.
  induction fd as [|a fd IH]; intros state i buf log ws' H.
  { simpl in H. simplify_eq. exists []. by rewrite app_nil_r. }
  cbn [wc_read_loop] in *. cbv zeta in *.
  destruct (int_to_char (uchar a) =? EOF).
  { simplify_eq. exists []. by rewrite app_nil_r. }
  destruct (negb (isalpha _)).
  - destruct (state =? WC_IN_WORD); [|by apply IH].
    destruct (buf_store buf i 0) as [buf'|]; [|done]. simpl in *.
    apply IH in H as (ws & -> & Hws). exists (c_str buf' :: ws).
    split; [by rewrite <- app_assoc|].
    intros ctxt. simpl. destruct (wc_new_word_callback _ ctxt); simpl; [apply Hws|done].
  - destruct (buf_store buf i _) as [buf'|]; [|done]. simpl in *. by apply IH.
Qed.

Lemma wc_thread_read_words junk fd ws ctxt :
  wc_words junk fd = Done ws →
  wc_thread_read junk fd ctxt = wc_record_all ws ctxt.
Proof.
  intros H. apply wc_read_loop_words in H as (ws0 & E & H). simpl in E. subst ws0.
  apply H.
Qed.

(** ** Threads: mutual exclusion and what it gives *)

Lemma sys_inv_init wss : sys_inv wss (sys_init wss).
Proof.
  exists [], [], []. split; simpl; try done.
  - rewrite <- list_fmap_compose. by rewrite list_fmap_id.
  - intros i r [ws [-> _]]%list_lookup_fmap_Some. done.
  - intros i r w found [ws [-> _]]%list_lookup_fmap_Some. done.
Qed.

(** Replacing a reader by one with the same outstanding words. *)
Lemma todo_insert_same (rs : list reader) i r r' :
  rs !! i = Some r → todo r' = todo r → todo <$> <[i := r']> rs = todo <$> rs.
Proof.
  intros Hi E. rewrite list_fmap_insert, E.
  apply list_insert_id. by rewrite list_lookup_fmap, Hi.
Qed.

(** Replacing a reader by one that has stored its first outstanding word. *)
Lemma todo_insert_stored (rs : list reader) i r r' w :
  rs !! i = Some r → todo r = w :: todo r' →
  concat (todo <$> rs) ≡ₚ w :: concat (todo <$> <[i := r']> rs).
Proof.
  intros Hi E.
  rewrite <- (take_drop_middle rs i r Hi) at 1.
  rewrite (insert_take_drop rs i r') by by eapply lookup_lt_Some.
  rewrite !fmap_app, !fmap_cons, !concat_app, !concat_cons, E. simpl.
  by rewrite <- Permutation_middle.
Qed.

Lemma no_sort_insert (rs : list reader) i r r' :
  rs !! i = Some r → rat r ≠ RSort →
  (∀ j x, <[i := r']> rs !! j = Some x → rat x ≠ RSort) →
  ∀ j x, rs !! j = Some x → rat x ≠ RSort.
Proof.
  intros Hi Hr Hno j x Hj. destruct (decide (j = i)) as [->|Hne].
  - by simplify_eq.
  - apply (Hno j). by rewrite list_lookup_insert_ne.
Qed.

(** The reader inside the callback is the only thread inside a critical
    section. *)
Lemma holder_alone (rs : list reader) (m : option tid) (p : ppc) i r :
  (∀ j x, rs !! j = Some x → rat x ≠ RIdle → m = Some (Reader j)) →
  (p ≠ PSleep → m = Some Printer) →
  rs !! i = Some r → rat r ≠ RIdle →
  m = Some (Reader i) ∧ p = PSleep ∧ ∀ j x, rs !! j = Some x → j ≠ i → rat x = RIdle.
Proof.
  intros Hmr Hmp Hi Hr. pose proof (Hmr i r Hi Hr) as Hm. split_and!; [done| |].
  - destruct (decide (p = PSleep)) as [|Hp]; [done|]. apply Hmp in Hp. congruence.
  - intros j x Hj Hne. destruct (decide (rat x = RIdle)) as [|Hx]; [done|].
    apply (Hmr j x Hj) in Hx. congruence.
Qed.

(** While the mutex is free or the printer has it, every reader is outside
    the callback. *)
Lemma readers_idle (rs : list reader) (m : option tid) :
  (∀ j x, rs !! j = Some x → rat x ≠ RIdle → m = Some (Reader j)) →
  m = None ∨ m = Some Printer →
  ∀ j x, rs !! j = Some x → rat x = RIdle.
Proof.
  intros Hmr Hm j x Hj. destruct (decide (rat x = RIdle)) as [|Hx]; [done|].
  apply (Hmr j x Hj) in Hx. destruct Hm; congruence.
Qed.

Lemma step_sys_inv wss s s' : step s s' → sys_inv wss s → sys_inv wss s'.
Proof.
  intros Hstep (bufs & T0 & snaps & [Hw Hc Hp Hs Hmr Hmp Hf Hl Hsn Ho Hh]).
  destruct Hstep as [T rs p o i w rest Hi|T m rs p o i ws w Hi
    |T T' m rs p o i ws w found Hi Hst|T m rs p o i ws Hi|T m rs p o i ws Hi
    |T rs o|T m rs o|T m rs o i e Hi0 He|T m rs o i Hlen|T m rs o]; simpl in *.
  - (* a reader takes the mutex *)
    exists bufs, T0, snaps. split; simpl; try done.
    + by rewrite (todo_insert_same _ _ _ _ Hi).
    + intros Hno. eapply Hs, no_sort_insert; [done| |done]. done.
    + intros j x Hj Hx. insert_cases Hj; [done|].
      by specialize (Hmr _ _ Hj Hx).
    + intros Hp'. by specialize (Hmp Hp').
    + intros j x w' f Hj Hx. insert_cases Hj; [done|]. eauto.
    + intros t [= <-]. eexists. split; [apply list_lookup_insert_eq; by eapply lookup_lt_Some|done].
  - (* the lookup loop *)
    exists bufs, T0, snaps. split; simpl; try done.
    + by rewrite (todo_insert_same _ _ _ _ Hi).
    + intros Hno. eapply Hs, no_sort_insert; [done| |done]. done.
    + intros j x Hj Hx. insert_cases Hj; [by apply (Hmr _ _ Hi)|eauto].
    + intros j x w' f Hj Hx. insert_cases Hj; [by simplify_eq/=|eauto].
    + rewrite (Hmr _ _ Hi) by done.
      intros t [= <-]. eexists. split; [apply list_lookup_insert_eq; by eapply lookup_lt_Some|done].
  - (* the store *)
    destruct (holder_alone rs m p i _ Hmr Hmp Hi ltac:(done)) as (-> & -> & Hidle).
    pose proof (Hf _ _ _ _ Hi eq_refl) as ->.
    assert (T = T0) as ->.
    { apply Hs. intros j x Hj. destruct (decide (j = i)) as [->|Hne].
      - by simplify_eq.
      - by rewrite (Hidle j x Hj Hne). }
    exists (bufs ++ [w]), (qsort wc_compare_words T'), snaps. split; simpl; try done.
    + rewrite <- Hw, (todo_insert_stored rs i _ (Rd ws RSort) w Hi) by done.
      by rewrite <- app_assoc.
    + rewrite wc_record_all_app, Hc. simpl. unfold wc_new_word_callback, wc_store_word.
      by rewrite Hst.
    + by rewrite qsort_perm.
    + intros Hno. exfalso. apply (Hno i (Rd ws RSort)); [|done].
      apply list_lookup_insert_eq. by eapply lookup_lt_Some.
    + intros j x Hj Hx. insert_cases Hj; [done|]. eauto.
    + intros j x w' f Hj Hx. insert_cases Hj; [done|].
      rewrite (Hidle j x Hj) in Hx by done. done.
    + intros t [= <-]. eexists. split; [apply list_lookup_insert_eq; by eapply lookup_lt_Some|done].
  - (* qsort *)
    destruct (holder_alone rs m p i _ Hmr Hmp Hi ltac:(done)) as (-> & -> & Hidle).
    exists bufs, T0, snaps. split; simpl; try done.
    + by rewrite (todo_insert_same _ _ _ _ Hi).
    + by rewrite qsort_perm.
    + intros _. symmetry. apply qsort_unique; [done|].
      destruct (wc_record_all_spec _ _ _ Hc wc_wf_nil) as (_ & _ & Hsorted & _).
      apply Hsorted. constructor.
    + intros j x Hj Hx. insert_cases Hj; [done|]. eauto.
    + intros j x w' f Hj Hx. insert_cases Hj; [done|].
      rewrite (Hidle j x Hj) in Hx by done. done.
    + intros t [= <-]. eexists. split; [apply list_lookup_insert_eq; by eapply lookup_lt_Some|done].
  - (* a reader releases the mutex *)
    destruct (holder_alone rs m p i _ Hmr Hmp Hi ltac:(done)) as (-> & -> & Hidle).
    exists bufs, T0, snaps. split; simpl; try done.
    + by rewrite (todo_insert_same _ _ _ _ Hi).
    + intros Hno. eapply Hs, no_sort_insert; [done| |done]. done.
    + intros j x Hj Hx. insert_cases Hj; [done|].
      rewrite (Hidle j x Hj) in Hx by done. done.
    + intros j x w' f Hj Hx. insert_cases Hj; [done|]. eauto.
  - (* the printer takes the mutex *)
    exists bufs, T0, snaps. split; simpl; try done.
    + intros j x Hj Hx. by specialize (Hmr _ _ Hj Hx).
    + by intros t [= <-].
  - (* the header *)
    exists bufs, T0, snaps. split; simpl; try done.
    + intros _. by apply Hmp.
    + intros i [= <-]. done.
    + rewrite Ho. simpl. by rewrite app_nil_r.
    + rewrite (Hmp ltac:(done)). by intros t [= <-].
  - (* one line of the report *)
    exists bufs, T0, snaps. split; simpl; try done.
    + intros _. by apply Hmp.
    + intros i' [= <-]. lia.
    + rewrite Ho. simpl. rewrite Z2Nat.inj_add by lia.
      change (Z.to_nat 1) with 1%nat. rewrite Nat.add_1_r.
      rewrite (take_S_r _ _ _ He), fmap_app. simpl.
      by rewrite <- app_assoc.
    + rewrite (Hmp ltac:(done)). by intros t [= <-].
  - (* the separator: a report is complete *)
    assert (T = T0) as ->.
    { apply Hs. intros j x Hj.
      rewrite (readers_idle rs m Hmr (or_intror (Hmp ltac:(done))) j x Hj). done. }
    exists bufs, T0, (snaps ++ [T0]). split; simpl; try done.
    + intros _. by apply Hmp.
    + apply Forall_app. split; [done|]. repeat constructor.
      exists bufs. split; [|done]. rewrite <- Hw. by apply submseteq_inserts_r.
    + rewrite Ho, fmap_app, concat_app. simpl.
      rewrite take_ge by (unfold len in Hlen; lia).
      rewrite app_nil_r, <- !app_assoc. done.
    + rewrite (Hmp ltac:(done)). by intros t [= <-].
  - (* the printer releases the mutex *)
    exists bufs, T0, snaps. split; simpl; try done.
    intros j x Hj Hx.
    rewrite (readers_idle rs m Hmr (or_intror (Hmp ltac:(done))) j x Hj) in Hx. done.
Qed.

Lemma sys_inv_reachable wss s : rtc step (sys_init wss) s → sys_inv wss s.
Proof.
  intros H. apply (rtc_ind_r (R := step) (sys_inv wss) (sys_init wss)); [apply sys_inv_init| |done].
  intros y z _ Hstep Hy. by eapply step_sys_inv.
Qed.

(** When every reader is done, the table is the one that the same calls
    made one after the other, in any order, leave behind. *)
Lemma sys_inv_done wss s :
  sys_inv wss s → readers_done s →
  wc_record_all (concat wss) [] = Done (table s).
Proof.
  intros (bufs & T0 & snaps & [Hw Hc Hp Hs Hmr Hmp Hf Hl Hsn Ho Hh]) Hdone.
  assert (Hall : ∀ i r, readers s !! i = Some r → r = Rd [] RIdle).
  { intros i r Hi. by apply (Forall_lookup_1 _ _ _ _ Hdone Hi). }
  assert (table s = T0) as ->.
  { apply Hs. intros i r Hi. by rewrite (Hall i r Hi). }
  assert (concat (todo <$> readers s) = []) as E.
  { unfold readers_done in Hdone. clear -Hdone.
    induction (readers s) as [|r rs IH]; [done|].
    apply Forall_cons in Hdone as [-> Hdone]. simpl. by apply IH. }
  rewrite E, app_nil_r in Hw. by apply (wc_record_all_perm bufs).
Qed.

(** A state with every reader done is reached only when the words fit. *)
Lemma sys_inv_done_fits wss s : sys_inv wss s → readers_done s → fits (concat wss).
Proof.
  intros Hinv Hdone. apply wc_record_all_fits.
  exists (table s). by apply sys_inv_done.
Qed.

(** ** Progress: the threads never block each other for good *)

Lemma fits_app_l bufs1 bufs2 : fits (bufs1 ++ bufs2) → fits bufs1.
Proof.
  intros Hfit. pose proof Hfit as (Hd & Hs & Ho). split_and!.
  - assert (Hsub : remove_dups bufs1 ⊆+ remove_dups (bufs1 ++ bufs2)).
    { apply NoDup_submseteq; [apply NoDup_remove_dups|].
      intros w. rewrite !elem_of_remove_dups, elem_of_app. auto. }
    apply submseteq_length in Hsub. lia.
  - by apply Forall_app in Hs as [? _].
  - apply Forall_forall. intros b _.
    pose proof (fits_occurrences _ b Hfit) as H. rewrite occurrences_app in H.
    pose proof (occurrences_nonneg b bufs2). lia.
Qed.

Lemma rtc_sys_inv wss s s' : sys_inv wss s → rtc step s s' → sys_inv wss s'.
Proof. intros Hinv H. induction H; [done|]. eauto using step_sys_inv. Qed.

(** The store of a reader that has the mutex is defined when the words of
    all readers fit. *)
Lemma sys_inv_store_defined wss T m rs p o i ws w found :
  sys_inv wss (Sys T m rs p o) → fits (concat wss) →
  rs !! i = Some (Rd ws (RStore w found)) →
  ∃ T', wc_store_found T w found = Done T'.
Proof.
  intros (bufs & T0 & snaps & [Hw Hc Hp Hs Hmr Hmp Hf Hl Hsn Ho Hh]) Hfit Hi.
  simpl in *.
  destruct (holder_alone rs m p i _ Hmr Hmp Hi ltac:(done)) as (-> & -> & Hidle).
  pose proof (Hf _ _ _ _ Hi eq_refl) as ->.
  assert (T = T0) as ->.
  { apply Hs. intros j x Hj. destruct (decide (j = i)) as [->|Hne].
    - by simplify_eq.
    - by rewrite (Hidle j x Hj Hne). }
  assert (fits (bufs ++ [w])) as [c Hcw]%wc_record_all_fits.
  { apply (fits_app_l _ (concat (todo <$> <[i := Rd ws RSort]> rs))).
    rewrite <- Hw, (todo_insert_stored rs i _ (Rd ws RSort) w Hi) in Hfit by done.
    by rewrite <- app_assoc. }
  rewrite wc_record_all_app, Hc in Hcw. simpl in Hcw.
  unfold wc_new_word_callback, wc_store_word in Hcw.
  destruct (wc_store_found T0 w (wc_lookup T0 w)) as [T'|]; [eauto|done].
Qed.

Lemma work_cons r rs : work (r :: rs) = (steps_left r + work rs)%nat.
Proof. done. Qed.

Lemma work_insert rs i r r' :
  rs !! i = Some r → (work (<[i := r']> rs) + steps_left r = work rs + steps_left r')%nat.
Proof.
  revert i. induction rs as [|x rs IH]; intros [|i] H; try done.
  - injection H as ->. change (<[0%nat := r']> (r :: rs)) with (r' :: rs).
    rewrite !work_cons. lia.
  - change (<[S i := r']> (x :: rs)) with (x :: <[i := r']> rs).
    rewrite !work_cons. specialize (IH i H). lia.
Qed.

Lemma work_zero rs : work rs = 0%nat → Forall (λ r, r = Rd [] RIdle) rs.
Proof.
  induction rs as [|[ws pc] rs IH]; [constructor|].
  rewrite work_cons. unfold steps_left at 1. simpl pending. simpl rat.
  intros H. constructor; [|apply IH; lia].
  destruct ws, pc; simpl in *; done || lia.
Qed.

(** The printer, once inside [wc_print_words], gets to the end of it. *)
Lemma printer_lines T m rs (n : nat) : ∀ i o,
  0 <= i → (Z.to_nat (len T - i) = n) →
  ∃ o', rtc step (Sys T m rs (PLine i) o) (Sys T None rs PSleep o').
Proof.
  induction n as [|n IH]; intros i o Hi Hn.
  - exists (o ++ [wc_separator]).
    eapply rtc_l; [apply step_p_separator; lia|].
    eapply rtc_l; [apply step_p_unlock|]. done.
  - destruct (lookup_lt_is_Some_2 T (Z.to_nat i)) as [e He]; [unfold len in Hn; lia|].
    destruct (IH (i + 1) (o ++ [wc_entry e])) as [o' Ho']; [lia|lia|].
    exists o'. eapply rtc_l; [by apply step_p_line|]. done.
Qed.

Lemma printer_finishes wss T m rs p o :
  sys_inv wss (Sys T m rs p o) → p ≠ PSleep →
  ∃ o', rtc step (Sys T m rs p o) (Sys T None rs PSleep o').
Proof.
  intros (bufs & T0 & snaps & [Hw Hc Hp Hs Hmr Hmp Hf Hl Hsn Ho Hh]) Hne. simpl in *.
  destruct p as [| |i|]; [done| | |].
  - destruct (printer_lines T m rs (Z.to_nat (len T - 0)) 0 (o ++ [wc_header]))
      as [o' Ho']; [done..|].
    exists o'. eapply rtc_l; [apply step_p_header|done].
  - by apply (printer_lines T m rs (Z.to_nat (len T - i))); [apply Hl|].
  - eexists. apply rtc_once, step_p_unlock.
Qed.

(** With all readers outside the callback, the mutex becomes free. *)
Lemma mutex_gets_free wss T m rs p o :
  sys_inv wss (Sys T m rs p o) → Forall (λ r, rat r = RIdle) rs →
  ∃ o', rtc step (Sys T m rs p o) (Sys T None rs PSleep o').
Proof.
  intros Hinv Hidle. destruct (decide (p = PSleep)) as [->|Hp];
    [|by eapply printer_finishes].
  destruct Hinv as (bufs & T0 & snaps & [Hw Hc Hp Hs Hmr Hmp Hf Hl Hsn Ho Hh]).
  simpl in *. destruct m as [t|]; [|by eexists].
  specialize (Hh t eq_refl). destruct t as [j|]; [|done].
  destruct Hh as (r & Hj & Hr). by apply (Forall_lookup_1 _ _ _ _ Hidle) in Hj.
Qed.

(** From every state the threads can reach, they can go on until every
    reader is done, provided the words of all readers fit the table. *)
Lemma sys_can_finish wss :
  fits (concat wss) →
  ∀ (n : nat) s, work (readers s) = n → sys_inv wss s →
    ∃ s', rtc step s s' ∧ readers_done s'.
Proof.
  intros Hfit n. induction n as [n IH] using lt_wf_ind. intros [T m rs p o] Hn Hinv.
  simpl in Hn.
  assert (Hnext : ∀ s1, rtc step (Sys T m rs p o) s1 → (work (readers s1) < n)%nat →
            ∃ s', rtc step (Sys T m rs p o) s' ∧ readers_done s').
  { intros s1 Hrun Hlt.
    destruct (IH _ Hlt s1 eq_refl) as (s' & Hrun' & Hdone);
      [by eapply rtc_sys_inv|].
    exists s'. split; [by etrans|done]. }
  destruct (decide (Forall (λ r, rat r = RIdle) rs)) as [Hidle|Hbusy].
  - destruct (decide (Forall (λ r, pending r = []) rs)) as [Hempty|Hpend].
    + exists (Sys T m rs p o). split; [done|]. unfold readers_done. simpl.
      apply Forall_forall. intros [ws pc] Hr.
      apply (proj1 (Forall_forall _ _) Hidle) in Hr as Hr1.
      apply (proj1 (Forall_forall _ _) Hempty) in Hr as Hr2.
      simpl in *. by subst.
    + apply not_Forall_Exists in Hpend; [|apply _].
      apply Exists_exists in Hpend as ([ws pc] & [i Hi]%list_elem_of_lookup & Hne).
      apply (Forall_lookup_1 _ _ _ _ Hidle) in Hi as Hpc. simpl in Hne, Hpc. subst pc.
      destruct ws as [|w rest]; [done|].
      destruct (mutex_gets_free _ _ _ _ _ _ Hinv Hidle) as [o' Hfree].
      apply (Hnext (Sys T (Some (Reader i)) (<[i := Rd rest (RLookup w)]> rs) PSleep o')).
      * eapply rtc_r; [exact Hfree|]. by apply step_r_lock.
      * simpl. pose proof (work_insert rs i _ (Rd rest (RLookup w)) Hi) as Hwk.
        unfold steps_left in Hwk. simpl in Hwk. lia.
  - apply not_Forall_Exists in Hbusy; [|apply _].
    apply Exists_exists in Hbusy as ([ws pc] & [i Hi]%list_elem_of_lookup & Hne).
    simpl in Hne. destruct pc as [|w|w found| |]; [done| | | |].
    + apply (Hnext (Sys T m (<[i := Rd ws (RStore w (wc_lookup T w))]> rs) p o)).
      * by apply rtc_once, step_r_lookup.
      * simpl. pose proof (work_insert rs i _ (Rd ws (RStore w (wc_lookup T w))) Hi) as Hwk.
        unfold steps_left in Hwk. simpl in Hwk. lia.
    + destruct (sys_inv_store_defined _ _ _ _ _ _ _ _ _ _ Hinv Hfit Hi) as [T' Hst].
      apply (Hnext (Sys T' m (<[i := Rd ws RSort]> rs) p o)).
      * by eapply rtc_once, step_r_store.
      * simpl. pose proof (work_insert rs i _ (Rd ws RSort) Hi) as Hwk.
        unfold steps_left in Hwk. simpl in Hwk. lia.
    + apply (Hnext (Sys (qsort wc_compare_words T) m (<[i := Rd ws RUnlock]> rs) p o)).
      * by apply rtc_once, step_r_sort.
      * simpl. pose proof (work_insert rs i _ (Rd ws RUnlock) Hi) as Hwk.
        unfold steps_left in Hwk. simpl in Hwk. lia.
    + apply (Hnext (Sys T None (<[i := Rd ws RIdle]> rs) p o)).
      * by eapply rtc_once, step_r_unlock.
      * simpl. pose proof (work_insert rs i _ (Rd ws RIdle) Hi) as Hwk.
        unfold steps_left in Hwk. simpl in Hwk. lia.
Qed.

(** C2 (amended): when the words of all readers together fit the
    program's fixed capacities (at most 128 distinct words, each shorter
    than 128 bytes, none recorded more than INT_MAX times), then in every
    interleaving of the steps of the reader threads and the printer
    thread, with [pthread_mutex_lock] letting one thread in at a time, no
    update is lost and no report is torn: the threads can always go on
    until every reader has made all of its calls, and the table is then
    the one the same calls leave behind when made one after the other, so
    each distinct word has one entry and its count is exactly the number of
    times the readers recorded it.  A state in which every reader is done
    is reached only when the words fit.  At every moment, whether the words
    fit or not, the output consists of whole reports, each of a table left
    behind by whole calls of the callback, followed by the part of the
    report the printer is in the middle of, which is of such a table too;
    and a reader inside the callback holds the mutex and is the only thread
    inside a critical section. *)
Theorem no_lost_updates_no_torn_reads (wss : list (list string)) (s : sys) :
  rtc step (sys_init wss) s →
  (fits (concat wss) → ∃ s', rtc step s s' ∧ readers_done s') ∧
  (readers_done s →
     fits (concat wss) ∧
     wc_record_all (concat wss) [] = Done (table s) ∧
     tallies (concat wss) (table s)) ∧
  (∃ snaps, Forall (snapshot_of wss) snaps ∧
     out s = concat (wc_print_words <$> snaps) ++ partial_report (printer s) (table s)) ∧
  (printer s ≠ PSleep → snapshot_of wss (table s)) ∧
  (∀ i r, readers s !! i = Some r → rat r ≠ RIdle →
     mtx s = Some (Reader i) ∧ printer s = PSleep ∧
     ∀ j x, readers s !! j = Some x → j ≠ i → rat x = RIdle).
Proof.
  intros Hreach%sys_inv_reachable. split_and!.
  - intros Hfit. by eapply sys_can_finish.
  - intros Hdone. pose proof (sys_inv_done _ _ Hreach Hdone) as H.
    split_and!; [by eapply sys_inv_done_fits|done|]. by apply wc_record_all_tallies.
  - destruct Hreach as (bufs & T0 & snaps & [Hw Hc Hp Hs Hmr Hmp Hf Hl Hsn Ho Hh]). eauto.
  - destruct Hreach as (bufs & T0 & snaps & [Hw Hc Hp Hs Hmr Hmp Hf Hl Hsn Ho Hh]).
    intros Hpr. exists bufs. split.
    + rewrite <- Hw. by apply submseteq_inserts_r.
    + rewrite Hs; [done|]. intros j x Hj.
      by rewrite (readers_idle _ _ Hmr (or_intror (Hmp Hpr)) j x Hj).
  - destruct Hreach as (bufs & T0 & snaps & [Hw Hc Hp Hs Hmr Hmp Hf Hl Hsn Ho Hh]).
    intros i r Hi Hr. by eapply holder_alone.
Qed.

Lemma demo_run : rtc step (sys_init demo_wss) demo_final.
Proof.
  unfold demo_wss, demo_final, sys_init. cbn.
  sys_step (step_r_lock _ _ _ _ 0%nat).
  sys_step (step_r_lookup _ _ _ _ _ 0%nat).
  sys_step (step_r_store _ _ _ _ _ _ 0%nat).
  sys_step (step_r_sort _ _ _ _ _ 0%nat).
  sys_step (step_r_unlock _ _ _ _ _ 0%nat).
  sys_step step_p_lock.
  sys_step step_p_header.
  sys_step (step_p_line _ _ _ _ 0).
  sys_step (step_p_separator _ _ _ _ 1).
  sys_step step_p_unlock.
  sys_step (step_r_lock _ _ _ _ 1%nat).
  sys_step (step_r_lookup _ _ _ _ _ 1%nat).
  sys_step (step_r_store _ _ _ _ _ _ 1%nat).
  sys_step (step_r_sort _ _ _ _ _ 1%nat).
  sys_step (step_r_unlock _ _ _ _ _ 1%nat).
  sys_step (step_r_lock _ _ _ _ 0%nat).
  sys_step (step_r_lookup _ _ _ _ _ 0%nat).
  sys_step (step_r_store _ _ _ _ _ _ 0%nat).
  sys_step (step_r_sort _ _ _ _ _ 0%nat).
  sys_step (step_r_unlock _ _ _ _ _ 0%nat).
  apply rtc_refl.
Defined.

Lemma no_lost_updates_no_torn_reads_witness :
  rtc step (sys_init demo_wss) demo_final ∧
  (fits (concat demo_wss) → ∃ s', rtc step demo_final s' ∧ readers_done s') ∧
  (readers_done demo_final →
     fits (concat demo_wss) ∧
     wc_record_all (concat demo_wss) [] = Done (table demo_final) ∧
     tallies (concat demo_wss) (table demo_final)) ∧
  (∃ snaps, Forall (snapshot_of demo_wss) snaps ∧
     out demo_final =
     concat (wc_print_words <$> snaps) ++
     partial_report (printer demo_final) (table demo_final)) ∧
  (printer demo_final ≠ PSleep → snapshot_of demo_wss (table demo_final)) ∧
  (∀ i r, readers demo_final !! i = Some r → rat r ≠ RIdle →
     mtx demo_final = Some (Reader i) ∧ printer demo_final = PSleep ∧
     ∀ j x, readers demo_final !! j = Some x → j ≠ i → rat x = RIdle).
Proof.
  split; [exact demo_run|].
  apply (no_lost_updates_no_torn_reads demo_wss demo_final). exact demo_run.
Defined.

(** A reader that finds the mutex free makes one whole call of the
    callback. *)
Lemma reader_call_run T T' rs i w rest o :
  rs !! i = Some (Rd (w :: rest) RIdle) →
  wc_new_word_callback w T = Done T' →
  rtc step (Sys T None rs PSleep o) (Sys T' None (<[i := Rd rest RIdle]> rs) PSleep o).
Proof.
  intros Hi Hcall. unfold wc_new_word_callback in Hcall.
  destruct (wc_store_word T w) as [T1|] eqn:Hst; simplify_eq/=.
  assert (Hlt : (i < length rs)%nat) by by eapply lookup_lt_Some.
  eapply rtc_l; [by apply (step_r_lock _ _ _ _ i w rest)|].
  eapply rtc_l.
  { apply (step_r_lookup _ _ _ _ _ i rest w). by apply list_lookup_insert_eq. }
  rewrite list_insert_insert_eq.
  eapply rtc_l.
  { apply (step_r_store _ T1 _ _ _ _ i rest w (wc_lookup T w));
      [by apply list_lookup_insert_eq|done]. }
  rewrite list_insert_insert_eq.
  eapply rtc_l.
  { apply (step_r_sort _ _ _ _ _ i rest). by apply list_lookup_insert_eq. }
  rewrite list_insert_insert_eq.
  eapply rtc_l.
  { apply (step_r_unlock _ _ _ _ _ i rest). by apply list_lookup_insert_eq. }
  by rewrite list_insert_insert_eq.
Qed.

(** And so it makes a sequence of calls when no other thread runs. *)
Lemma reader_calls_run ws : ∀ T T' rs i rest o,
  rs !! i = Some (Rd (ws ++ rest) RIdle) →
  wc_record_all ws T = Done T' →
  rtc step (Sys T None rs PSleep o) (Sys T' None (<[i := Rd rest RIdle]> rs) PSleep o).
Proof.
  induction ws as [|w ws IH]; intros T T' rs i rest o Hi Hrec; simpl in *.
  - simplify_eq. by rewrite list_insert_id.
  - destruct (wc_new_word_callback w T) as [T1|] eqn:Hcall; simplify_eq/=.
    etrans; [by eapply reader_call_run|].
    assert (Hlt : (i < length rs)%nat) by by eapply lookup_lt_Some.
    rewrite <- (list_insert_insert_eq rs i (Rd rest RIdle) (Rd (ws ++ rest) RIdle)).
    apply IH; [by apply list_lookup_insert_eq|done].
Qed.

Lemma over_capacity_run : rtc step (sys_init over_capacity) over_capacity_stuck.
Proof.
  unfold over_capacity, over_capacity_stuck, sys_init.
  change ((λ ws, Rd ws RIdle) <$> [distinct_words 128; [two_letters 128]])
    with [Rd (distinct_words 128 ++ []) RIdle; Rd [two_letters 128] RIdle].
  etrans.
  { apply (reader_calls_run (distinct_words 128) [] full_table _ 0%nat [] []);
      [done|vm_compute; reflexivity]. }
  cbn [list_insert insert].
  eapply rtc_l; [by apply (step_r_lock _ _ _ _ 1%nat (two_letters 128) [])|].
  cbn [list_insert insert].
  eapply rtc_l; [by apply (step_r_lookup _ _ _ _ _ 1%nat [] (two_letters 128))|].
  cbn [list_insert insert].
  assert (wc_lookup full_table (two_letters 128) = -1) as -> by (vm_compute; reflexivity).
  done.
Qed.

(** C2 (as first stated, for all words): it fails when the words do not
    fit the table.  Two readers deliver 129 distinct words between them.
    The threads reach the state in which the table holds 128 entries and
    the second reader, holding the mutex, is about to execute
    [strcpy(ctxt->words[128].word, buf)], a store past the end of the
    array; that state has no defined next step, and no execution reaches a
    state in which every reader is done, so there is no resulting table
    whose counts could be right. *)
Lemma readers_past_capacity_have_no_result :
  ¬ fits (concat over_capacity) ∧
  rtc step (sys_init over_capacity) over_capacity_stuck ∧
  len (table over_capacity_stuck) = WORDS_CAP ∧
  wc_store_found (table over_capacity_stuck) (two_letters 128) (-1) =
    Undefined (TableOverrun 128) ∧
  (¬ ∃ s', step over_capacity_stuck s') ∧
  (∀ s, rtc step (sys_init over_capacity) s → ¬ readers_done s).
Proof.
  assert (Hn : ¬ fits (concat over_capacity)).
  { apply (bool_decide_eq_false_1 (fits (concat over_capacity))). vm_compute. reflexivity. }
  split_and!.
  - exact Hn.
  - exact over_capacity_run.
  - vm_compute. reflexivity.
  - vm_compute. reflexivity.
  - intros [s' Hstep]. unfold over_capacity_stuck in Hstep.
    inversion Hstep as [T rs p o i w rest Hi|T m rs p o i ws w Hi
      |T T' m rs p o i ws w found Hi Hst|T m rs p o i ws Hi|T m rs p o i ws Hi
      |T rs o|T m rs o|T m rs o i e Hi0 He|T m rs o i Hlen|T m rs o]; subst;
      destruct i as [|[|i]]; simplify_eq/=.
  - intros s Hreach Hdone. apply Hn.
    eapply sys_inv_done_fits; [by apply sys_inv_reachable|done].
Qed.

(** ** Two streams that end inside a word *)

(** C5 (what the code does instead): fed exactly "the cat sat" and
    "the dog sat", the two readers deliver the words "the", "cat" and
    "the", "dog"; the final "sat" of either stream is pending when the
    stream ends and is dropped.  In every interleaving the table at the end
    is [("the",2); ("cat",1); ("dog",1)], and that is what the last
    [wc_print_words] of [main] prints; "sat" is not in it. *)
Theorem two_streams_final_report (junk1 junk2 : nat → Z) (s : sys) :
  rtc step (sys_init the_cat_dog) s → readers_done s →
  wc_words junk1 "the cat sat" = Done ["the"; "cat"]%string ∧
  wc_words junk2 "the dog sat" = Done ["the"; "dog"]%string ∧
  the_cat_dog = [["the"; "cat"]; ["the"; "dog"]]%string ∧
  table s = [ {| word := "the"; freq := 2 |}; {| word := "cat"; freq := 1 |};
              {| word := "dog"; freq := 1 |} ] ∧
  text (wc_print_words (table s)) =
    (nl +:+ "Current word frequency count: " +:+ nl +:+
     "the - 2 " +:+ nl +:+ "cat - 1 " +:+ nl +:+ "dog - 1 " +:+ nl +:+
     "----------------------------- " +:+ nl)%string.
Proof.
  intros Hreach%sys_inv_reachable Hdone.
  pose proof (sys_inv_done _ _ Hreach Hdone) as H.
  assert (E : wc_record_all (concat the_cat_dog) [] =
              Done [ {| word := "the"; freq := 2 |}; {| word := "cat"; freq := 1 |};
                     {| word := "dog"; freq := 1 |} ]) by (vm_compute; reflexivity).
  rewrite E in H. injection H as <-. split_and!; vm_compute; reflexivity.
Qed.

Lemma the_cat_dog_run : rtc step (sys_init the_cat_dog) the_cat_dog_final.
Proof.
  vm_compute.
  sys_step (step_r_lock _ _ _ _ 1%nat).
  sys_step (step_r_lookup _ _ _ _ _ 1%nat).
  sys_step (step_r_store _ _ _ _ _ _ 1%nat).
  sys_step (step_r_sort _ _ _ _ _ 1%nat).
  sys_step (step_r_unlock _ _ _ _ _ 1%nat).
  sys_step (step_r_lock _ _ _ _ 0%nat).
  sys_step (step_r_lookup _ _ _ _ _ 0%nat).
  sys_step (step_r_store _ _ _ _ _ _ 0%nat).
  sys_step (step_r_sort _ _ _ _ _ 0%nat).
  sys_step (step_r_unlock _ _ _ _ _ 0%nat).
  sys_step (step_r_lock _ _ _ _ 1%nat).
  sys_step (step_r_lookup _ _ _ _ _ 1%nat).
  sys_step (step_r_store _ _ _ _ _ _ 1%nat).
  sys_step (step_r_sort _ _ _ _ _ 1%nat).
  sys_step (step_r_unlock _ _ _ _ _ 1%nat).
  sys_step (step_r_lock _ _ _ _ 0%nat).
  sys_step (step_r_lookup _ _ _ _ _ 0%nat).
  sys_step (step_r_store _ _ _ _ _ _ 0%nat).
  sys_step (step_r_sort _ _ _ _ _ 0%nat).
  sys_step (step_r_unlock _ _ _ _ _ 0%nat).
  apply rtc_refl.
Defined.

Lemma two_streams_final_report_witness :
  rtc step (sys_init the_cat_dog) the_cat_dog_final ∧
  readers_done the_cat_dog_final ∧
  wc_words (λ _, 0) "the cat sat" = Done ["the"; "cat"]%string ∧
  wc_words (λ _, 0) "the dog sat" = Done ["the"; "dog"]%string ∧
  the_cat_dog = [["the"; "cat"]; ["the"; "dog"]]%string ∧
  table the_cat_dog_final =
    [ {| word := "the"; freq := 2 |}; {| word := "cat"; freq := 1 |};
      {| word := "dog"; freq := 1 |} ] ∧
  text (wc_print_words (table the_cat_dog_final)) =
    (nl +:+ "Current word frequency count: " +:+ nl +:+
     "the - 2 " +:+ nl +:+ "cat - 1 " +:+ nl +:+ "dog - 1 " +:+ nl +:+
     "----------------------------- " +:+ nl)%string.
Proof.
  split; [exact the_cat_dog_run|].
  split; [repeat constructor|].
  apply (two_streams_final_report (λ _, 0) (λ _, 0) the_cat_dog_final).
  - exact the_cat_dog_run.
  - repeat constructor.
Defined.

(** ** Too many input files *)

Lemma main_open_loop_overrun env n i k :
  THREADS_CAP <= i → main_open_loop env (S n) i k = [Crash (ThreadArrayOverrun i)].
Proof.
  intros H. simpl. destruct (Z.leb_spec THREADS_CAP i); [done|lia].
Qed.

Lemma main_open_loop_ok n i k :
  i < THREADS_CAP →
  main_open_loop env_ok (S n) i k =
  Fopen i :: CreateReader i :: main_open_loop env_ok n (i + 1) k.
Proof.
  intros H. simpl. destruct (Z.leb_spec THREADS_CAP i); [lia|done].
Qed.

(** C8 (what the code does instead): [main] never compares [argc] with the
    size of its thread arrays.  It creates the reader of standard input
    first, whatever [argc] is; with ten or more file arguments that can all
    be opened it then creates nine more readers and stores to [tctxt[10]],
    past the end of the array, which is undefined behaviour.  No
    configuration error is reported and the program does not exit. *)
Theorem too_many_sources_overrun_thread_array (argc : Z) :
  11 <= argc →
  main argc env_ok =
    [ CreateReader 0;
      Fopen 1; CreateReader 1; Fopen 2; CreateReader 2; Fopen 3; CreateReader 3;
      Fopen 4; CreateReader 4; Fopen 5; CreateReader 5; Fopen 6; CreateReader 6;
      Fopen 7; CreateReader 7; Fopen 8; CreateReader 8; Fopen 9; CreateReader 9;
      Crash (ThreadArrayOverrun 10) ] ∧
  ∀ env, head (main argc env) = Some (CreateReader 0).
Proof.
  intros Hargc. split.
  - unfold main. simpl pthread_ok. cbn [negb].
    destruct (Z.to_nat (argc - 1)) as [|n] eqn:E; [lia|].
    do 9 (destruct n as [|n]; [lia|]).
    do 9 (rewrite main_open_loop_ok by done; simpl Z.add).
    by rewrite main_open_loop_overrun.
  - intros env. unfold main. by destruct (negb _).
Qed.

Lemma too_many_sources_overrun_thread_array_witness :
  11 <= 11 ∧
  main 11 env_ok =
    [ CreateReader 0;
      Fopen 1; CreateReader 1; Fopen 2; CreateReader 2; Fopen 3; CreateReader 3;
      Fopen 4; CreateReader 4; Fopen 5; CreateReader 5; Fopen 6; CreateReader 6;
      Fopen 7; CreateReader 7; Fopen 8; CreateReader 8; Fopen 9; CreateReader 9;
      Crash (ThreadArrayOverrun 10) ] ∧
  ∀ env, head (main 11 env) = Some (CreateReader 0).
Proof.
  split; [lia|]. apply (too_many_sources_overrun_thread_array 11). lia.
Defined.

Example main_demo :
  main 3 env_ok =
    [ CreateReader 0; Fopen 1; CreateReader 1; Fopen 2; CreateReader 2; CreatePrinter;
      JoinReader 0; JoinReader 1; JoinReader 2;
      CancelPrinter; JoinPrinter; LockMtx; PrintWords; UnlockMtx; Exit EXIT_SUCCESS ].
Proof. reflexivity. Qed.

(** ** The text of a report *)

Lemma append_assoc_str (a b c : string) : (a +:+ b) +:+ c = a +:+ b +:+ c.
Proof.
  induction a as [|x a IH]; [done|].
  rewrite <- !append_comm_cons_str. by rewrite IH.
Qed.

Lemma is_prefix_app p t : is_prefix p (p +:+ t) = true.
Proof.
  induction p as [|a p IH]; simpl; [done|]. by rewrite Ascii.eqb_refl, IH.
Qed.

Lemma occurs_in_app before needle after :
  occurs_in needle (before +:+ needle +:+ after) = true.
Proof.
  induction before as [|a before IH].
  - change (EmptyString +:+ needle +:+ after) with (needle +:+ after).
    pose proof (is_prefix_app needle after) as H.
    destruct (needle +:+ after); simpl; by rewrite H.
  - rewrite <- append_comm_cons_str. cbn [occurs_in]. rewrite IH. apply orb_true_r.
Qed.

(** C9, as stated, fails: the report of the table {"a":1} has no line
    "a - 1".  The line for the entry is "a - 1 ", with a space before the
    newline, and the report starts with an empty line. *)
Lemma report_line_not_as_specified :
  wc_record_all ["a"%string] [] = Done one_entry ∧
  text (wc_print_words one_entry) =
    (nl +:+ "Current word frequency count: " +:+ nl +:+
     "a - 1 " +:+ nl +:+ "----------------------------- " +:+ nl)%string ∧
  ¬ ∃ before after,
      text (wc_print_words one_entry) =
      before +:+ (spec_entry_line {| word := "a"; freq := 1 |} +:+ nl) +:+ after.
Proof.
  split_and!; [vm_compute; reflexivity..|].
  intros (before & after & H).
  pose proof (occurs_in_app before
                (spec_entry_line {| word := "a"; freq := 1 |} +:+ nl) after) as Hocc.
  rewrite <- H in Hocc. vm_compute in Hocc. discriminate.
Qed.

Lemma text_entries ctxt :
  text ((wc_entry <$> ctxt) ++ [wc_separator]) =
  unlines ((wc_entry_line <$> ctxt) ++ ["----------------------------- "%string]).
Proof.
  unfold unlines. induction ctxt as [|e ctxt IH]; [done|].
  rewrite !fmap_cons, <- !app_comm_cons, !fmap_cons. cbn [text]. rewrite IH.
  unfold wc_entry, wc_entry_line. by rewrite !append_assoc_str.
Qed.

(** C9 (amended): every report is a self-contained block: an empty line,
    the header line "Current word frequency count: ", then exactly one
    line per table entry, of the form "<word> - <count> " with a space
    after the count, in the order of the table, which is the sorted order,
    then the separator line. *)
Theorem report_block (bufs : list string) (ctxt : wc_Context) :
  wc_record_all bufs [] = Done ctxt →
  text (wc_print_words ctxt) =
    unlines ([""; "Current word frequency count: "]%string ++
             (wc_entry_line <$> ctxt) ++
             ["----------------------------- "%string]) ∧
  (∀ e, wc_entry_line e = word e +:+ " - " +:+ pretty (freq e) +:+ " ") ∧
  StronglySorted report_before ctxt.
Proof.
  intros H. split_and!; [|done|].
  - unfold wc_print_words. cbn [text]. rewrite text_entries. done.
  - destruct (wc_record_all_spec _ _ _ H wc_wf_nil) as ([Hnd _] & _ & Hs & _).
    apply sorted_report_before; [done|]. apply Hs. constructor.
Qed.

Lemma report_block_witness :
  wc_record_all ["b"; "a"; "b"]%string [] =
    Done [ {| word := "b"; freq := 2 |}; {| word := "a"; freq := 1 |} ] ∧
  text (wc_print_words [ {| word := "b"; freq := 2 |}; {| word := "a"; freq := 1 |} ]) =
    unlines ([""; "Current word frequency count: "]%string ++
             (wc_entry_line <$>
                [ {| word := "b"; freq := 2 |}; {| word := "a"; freq := 1 |} ]) ++
             ["----------------------------- "%string]) ∧
  (∀ e, wc_entry_line e = word e +:+ " - " +:+ pretty (freq e) +:+ " ") ∧
  StronglySorted report_before
    [ {| word := "b"; freq := 2 |}; {| word := "a"; freq := 1 |} ].
Proof.
  split; [vm_compute; reflexivity|].
  apply (report_block ["b"; "a"; "b"]%string). vm_compute. reflexivity.
Defined.

(** * Further properties of the code *)

(** ** The comparison function *)

Lemma wc_compare_words_flip (a b : wc_Word) :
  wc_compare_words b a = - wc_compare_words a b.
Proof.
  unfold wc_compare_words.
  destruct (Z.eqb_spec (freq a) (freq b)) as [E|E].
  - rewrite <- E, Z.eqb_refl. apply strcmp_flip.
  - destruct (Z.eqb_spec (freq b) (freq a)); [congruence|lia].
Qed.

(** X1: on counts between 1 and [INT_MAX], which are the counts of every
    table the program builds and for which the subtraction
    [b->freq - a->freq] of two [int]s does not overflow,
    [wc_compare_words] is a consistent comparison function, as [qsort]
    requires: its result is inside [int], swapping the arguments flips the
    sign of the result, the result is 0 only for equal entries (same word
    and same count), and "not after" is transitive. *)
Theorem wc_compare_words_consistent (a b c : wc_Word) :
  0 < freq a <= INT_MAX → 0 < freq b <= INT_MAX → 0 < freq c <= INT_MAX →
  - INT_MAX <= freq b - freq a <= INT_MAX ∧
  - INT_MAX <= wc_compare_words a b <= INT_MAX ∧
  Z.sgn (wc_compare_words b a) = - Z.sgn (wc_compare_words a b) ∧
  (wc_compare_words a b = 0 ↔ a = b) ∧
  (wc_compare_words a b <= 0 → wc_compare_words b c <= 0 →
   wc_compare_words a c <= 0).
Proof.
  intros Ha Hb Hc. split_and!.
  - lia.
  - lia.
  - by apply wc_compare_words_in_int.
  - by apply wc_compare_words_in_int.
  - by rewrite wc_compare_words_flip, Z.sgn_opp.
  - unfold wc_compare_words. destruct (Z.eqb_spec (freq a) (freq b)) as [E|E].
    + rewrite strcmp_eq. destruct a, b; simpl in *. split; [by intros ->; subst|congruence].
    + split; [lia|congruence].
  - apply (precedes_wc_trans a b c).
Qed.

Lemma wc_compare_words_consistent_witness :
  0 < 2 <= INT_MAX ∧ 0 < 1 <= INT_MAX ∧
  - INT_MAX <= 1 - 2 <= INT_MAX ∧
  - INT_MAX <= wc_compare_words {| word := "b"; freq := 2 |} {| word := "a"; freq := 1 |}
            <= INT_MAX ∧
  Z.sgn (wc_compare_words {| word := "a"; freq := 1 |} {| word := "b"; freq := 2 |}) =
    - Z.sgn (wc_compare_words {| word := "b"; freq := 2 |} {| word := "a"; freq := 1 |}) ∧
  (wc_compare_words {| word := "b"; freq := 2 |} {| word := "a"; freq := 1 |} = 0 ↔
   {| word := "b"; freq := 2 |} = {| word := "a"; freq := 1 |}) ∧
  (wc_compare_words {| word := "b"; freq := 2 |} {| word := "a"; freq := 1 |} <= 0 →
   wc_compare_words {| word := "a"; freq := 1 |} {| word := "c"; freq := 1 |} <= 0 →
   wc_compare_words {| word := "b"; freq := 2 |} {| word := "c"; freq := 1 |} <= 0).
Proof.
  assert (H2 : 0 < 2 <= INT_MAX) by (unfold INT_MAX; lia).
  assert (H1 : 0 < 1 <= INT_MAX) by (unfold INT_MAX; lia).
  split; [exact H2|]. split; [exact H1|].
  exact (wc_compare_words_consistent
           {| word := "b"; freq := 2 |} {| word := "a"; freq := 1 |}
           {| word := "c"; freq := 1 |} H2 H1 H1).
Defined.



(** X3: in every table the program builds, the subtraction
    [b->freq - a->freq] of [wc_compare_words] stays inside [int]: all
    counts are between 1 and [INT_MAX]. *)
Theorem compare_stays_in_int (bufs : list string) (ctxt : wc_Context) (a b : wc_Word) :
  wc_record_all bufs [] = Done ctxt → a ∈ ctxt → b ∈ ctxt →
  0 < freq a <= INT_MAX ∧ 0 < freq b <= INT_MAX ∧
  - INT_MAX <= freq b - freq a <= INT_MAX ∧
  - INT_MAX <= wc_compare_words a b <= INT_MAX.
Proof.
  intros H Ha Hb.
  destruct (wc_record_all_spec _ _ _ H wc_wf_nil) as ([_ Hpos] & Hbd & _ & _).
  destruct (Hbd wc_bounded_nil) as [_ Hall].
  rewrite Forall_forall in Hpos, Hall.
  pose proof (Hpos a Ha). pose proof (Hpos b Hb).
  destruct (Hall a Ha) as [_ ?]. destruct (Hall b Hb) as [_ ?].
  split_and!; try lia; by apply wc_compare_words_in_int.
Qed.

Lemma compare_stays_in_int_witness :
  wc_record_all ["b"; "a"; "b"]%string [] =
    Done [ {| word := "b"; freq := 2 |}; {| word := "a"; freq := 1 |} ] ∧
  0 < 2 <= INT_MAX ∧ 0 < 1 <= INT_MAX ∧
  - INT_MAX <= 1 - 2 <= INT_MAX ∧
  - INT_MAX <= wc_compare_words {| word := "b"; freq := 2 |} {| word := "a"; freq := 1 |}
            <= INT_MAX.
Proof.
  assert (H : wc_record_all ["b"; "a"; "b"]%string [] =
              Done [ {| word := "b"; freq := 2 |}; {| word := "a"; freq := 1 |} ])
    by (vm_compute; reflexivity).
  split; [exact H|].
  apply (compare_stays_in_int ["b"; "a"; "b"]%string _
           {| word := "b"; freq := 2 |} {| word := "a"; freq := 1 |} H).
  - apply (bool_decide_unpack _). vm_compute. reflexivity.
  - apply (bool_decide_unpack _). vm_compute. reflexivity.
Defined.

(** ** The table *)

Lemma wc_lookup_from_last slots : ∀ i buf found,
  ((buf ∉ word <$> slots) ∧ wc_lookup_from i slots buf found = found) ∨
  (∃ (j : nat) e, slots !! j = Some e ∧ word e = buf ∧
     wc_lookup_from i slots buf found = i + Z.of_nat j ∧
     ∀ (k : nat) e', (j < k)%nat → slots !! k = Some e' → word e' ≠ buf).
Proof.
  induction slots as [|x r IH]; intros i buf found; simpl.
  { left. split; [apply not_elem_of_nil|done]. }
  destruct (IH (i + 1) buf (if strcmp (word x) buf =? 0 then i else found))
    as [[Hn ->]|(j & e & Hj & He & -> & Hlast)].
  - destruct (Z.eqb_spec (strcmp (word x) buf) 0) as [E|E].
    + apply strcmp_eq in E. right. exists 0%nat, x. split_and!; [done..|lia|].
      intros [|k] e' Hk Hk'; [lia|]. simpl in Hk'. intros <-.
      apply Hn. eapply list_elem_of_fmap_2, list_elem_of_lookup_2, Hk'.
    + left. split; [|done]. rewrite not_elem_of_cons. split; [|done].
      intros ->. by rewrite strcmp_refl in E.
  - right. exists (S j), e. split_and!; [done..|lia|].
    intros [|k] e' Hk Hk'; [lia|]. simpl in Hk'. apply (Hlast k); [lia|done].
Qed.

(** X4: the lookup loop of [wc_store_word] has no [break]: it yields -1
    exactly when no entry holds the word, and otherwise the index of the
    last entry that holds it; the index is always below [len]. *)
Theorem wc_lookup_last_match (ctxt : wc_Context) (buf : string) :
  -1 <= wc_lookup ctxt buf < len ctxt ∧
  (wc_lookup ctxt buf = -1 ↔ buf ∉ word <$> ctxt) ∧
  ∀ j : nat, wc_lookup ctxt buf = Z.of_nat j →
    (∃ e, ctxt !! j = Some e ∧ word e = buf) ∧
    ∀ (k : nat) e', (j < k)%nat → ctxt !! k = Some e' → word e' ≠ buf.
Proof.
  unfold wc_lookup.
  destruct (wc_lookup_from_last ctxt 0 buf (-1))
    as [[Hn ->]|(j & e & Hj & He & -> & Hlast)].
  - split; [unfold len; lia|]. split; [done|]. intros j ?. lia.
  - apply lookup_lt_Some in Hj as Hlt. split; [unfold len; lia|]. split.
    + split; [lia|]. intros Hn. exfalso. apply Hn. rewrite <- He.
      eapply list_elem_of_fmap_2, list_elem_of_lookup_2, Hj.
    + intros j' Hj'. assert (j' = j) as -> by lia. eauto.
Qed.

(** X5: a sequence of calls of [wc_new_word_callback] from the empty table
    is free of undefined behaviour exactly when the words fit the fixed
    arrays and the counter: at most 128 distinct words, each shorter than
    128 bytes, none recorded more than [INT_MAX] times. *)
Theorem calls_defined_iff_fit (bufs : list string) :
  is_done (wc_record_all bufs []) = true ↔ fits bufs.
Proof.
  rewrite wc_record_all_fits. split.
  - destruct (wc_record_all bufs []); [eauto|done].
  - by intros [ctxt ->].
Qed.

(** X6: the table after a sequence of calls does not depend on the order
    of the calls: recording the same words in another order gives the same
    array, entry for entry. *)
Theorem calls_commute (bufs1 bufs2 : list string) (ctxt : wc_Context) :
  bufs1 ≡ₚ bufs2 → wc_record_all bufs1 [] = Done ctxt →
  wc_record_all bufs2 [] = Done ctxt.
Proof. apply wc_record_all_perm. Qed.

Lemma calls_commute_witness :
  ["the"; "cat"; "the"; "dog"]%string ≡ₚ ["dog"; "the"; "the"; "cat"]%string ∧
  wc_record_all ["the"; "cat"; "the"; "dog"]%string [] =
    Done [ {| word := "the"; freq := 2 |}; {| word := "cat"; freq := 1 |};
           {| word := "dog"; freq := 1 |} ] ∧
  wc_record_all ["dog"; "the"; "the"; "cat"]%string [] =
    Done [ {| word := "the"; freq := 2 |}; {| word := "cat"; freq := 1 |};
           {| word := "dog"; freq := 1 |} ].
Proof.
  assert (Hp : ["the"; "cat"; "the"; "dog"]%string ≡ₚ ["dog"; "the"; "the"; "cat"]%string).
  { apply (bool_decide_unpack _). vm_compute. reflexivity. }
  assert (H : wc_record_all ["the"; "cat"; "the"; "dog"]%string [] =
    Done [ {| word := "the"; freq := 2 |}; {| word := "cat"; freq := 1 |};
           {| word := "dog"; freq := 1 |} ]) by (vm_compute; reflexivity).
  split_and!; [exact Hp|exact H|].
  exact (calls_commute _ _ _ Hp H).
Defined.

Lemma wc_total_app ctxt1 ctxt2 : wc_total (ctxt1 ++ ctxt2) = wc_total ctxt1 + wc_total ctxt2.
Proof. induction ctxt1 as [|e r IH]; simpl; lia. Qed.

Global Instance wc_total_perm : Proper ((≡ₚ) ==> (=)) wc_total.
Proof. intros l1 l2 H. induction H; simpl; lia. Qed.

Lemma wc_total_insert ctxt j e e' :
  ctxt !! j = Some e → wc_total (<[j := e']> ctxt) = wc_total ctxt + freq e' - freq e.
Proof.
  revert j. induction ctxt as [|x r IH]; intros [|j]; simpl; try done.
  - intros [= ->]. lia.
  - intros H. rewrite (IH j H). lia.
Qed.

Lemma wc_new_word_callback_total buf ctxt ctxt' :
  wc_new_word_callback buf ctxt = Done ctxt' →
  wc_total ctxt' = wc_total ctxt + 1.
Proof.
  unfold wc_new_word_callback. intros H.
  destruct (wc_store_word_spec ctxt buf) as [[_ E]|(j & e & Hj & He & E)];
    rewrite E in H; clear E; repeat case_match; simplify_eq/=; rewrite qsort_perm.
  - rewrite wc_total_app. simpl. lia.
  - rewrite (wc_total_insert _ _ e) by done. simpl. lia.
Qed.

Lemma wc_record_all_total bufs : ∀ ctxt ctxt',
  wc_record_all bufs ctxt = Done ctxt' →
  wc_total ctxt' = wc_total ctxt + Z.of_nat (length bufs).
Proof.
  induction bufs as [|b r IH]; intros c c' H; simpl in H.
  - simplify_eq. simpl. lia.
  - destruct (wc_new_word_callback b c) as [c1|] eqn:E; [|done]. simpl in H.
    apply wc_new_word_callback_total in E. apply IH in H. simpl length. lia.
Qed.

(** X7: after any sequence of calls of [wc_new_word_callback] from the
    empty table, the counts of the table add up to the number of calls, and
    the table has one entry for each distinct word recorded. *)
Theorem table_totals (bufs : list string) (ctxt : wc_Context) :
  wc_record_all bufs [] = Done ctxt →
  wc_total ctxt = Z.of_nat (length bufs) ∧
  length ctxt = length (remove_dups bufs) ∧
  word <$> ctxt ≡ₚ remove_dups bufs.
Proof.
  intros H.
  assert (Hp : word <$> ctxt ≡ₚ remove_dups bufs).
  { destruct (wc_record_all_tallies _ _ H) as (Hnd & Hin & Hfreq).
    destruct (wc_record_all_spec _ _ _ H wc_wf_nil) as ([_ Hpos] & _ & _ & _).
    apply NoDup_Permutation; [done|apply NoDup_remove_dups|].
    intros w. rewrite elem_of_remove_dups. split; [|apply Hin].
    intros (e & -> & He)%list_elem_of_fmap.
    apply occurrences_pos. rewrite <- Hfreq by done.
    by apply (proj1 (Forall_forall _ _) Hpos). }
  split_and!; [by rewrite (wc_record_all_total _ _ _ H)| |done].
  by rewrite <- Hp, length_fmap.
Qed.

Lemma table_totals_witness :
  wc_record_all ["b"; "a"; "b"]%string [] =
    Done [ {| word := "b"; freq := 2 |}; {| word := "a"; freq := 1 |} ] ∧
  wc_total [ {| word := "b"; freq := 2 |}; {| word := "a"; freq := 1 |} ] = 3 ∧
  length [ {| word := "b"; freq := 2 |}; {| word := "a"; freq := 1 |} ] =
    length (remove_dups ["b"; "a"; "b"]%string) ∧
  word <$> [ {| word := "b"; freq := 2 |}; {| word := "a"; freq := 1 |} ] ≡ₚ
    remove_dups ["b"; "a"; "b"]%string.
Proof.
  assert (H : wc_record_all ["b"; "a"; "b"]%string [] =
              Done [ {| word := "b"; freq := 2 |}; {| word := "a"; freq := 1 |} ])
    by (vm_compute; reflexivity).
  split; [exact H|]. exact (table_totals _ _ H).
Defined.

(** ** The reader *)

Lemma to_uchar_int_to_char u : 0 <= u < 256 → to_uchar (int_to_char u) = u.
Proof. unfold to_uchar, int_to_char. intros. Z.div_mod_to_equations. lia. Qed.

Lemma uchar_char_byte c : 0 <= c < 256 → uchar (char_byte c) = c.
Proof.
  intros H. unfold uchar, char_byte, to_uchar.
  rewrite N_ascii_embedding; rewrite Z.mod_small by lia; lia.
Qed.

Lemma isalpha_lower u :
  isalpha u = true → islower (int_to_char (tolower u)) = true.
Proof.
  unfold isalpha, tolower, islower, isupper, int_to_char. intros H.
  destruct (Z.leb_spec 65 u), (Z.leb_spec u 90), (Z.leb_spec 97 u), (Z.leb_spec u 122);
    simpl in *; try done;
    repeat match goal with |- context [(?a <=? ?b)] => destruct (Z.leb_spec a b) end;
    simpl; try done; Z.div_mod_to_equations; lia.
Qed.

(** X8: [buf] has no initializer, and needs none: whatever bytes the 128
    cells hold when [wc_read_fd] starts, the calls of the callback and the
    outcome are the same, because every cell is written before it is
    read. *)
Theorem reader_ignores_initial_buffer {C} (callback : string → C → outcome C)
    (junk1 junk2 : nat → Z) (fd : string) (ctxt : C) :
  wc_read_fd callback junk1 fd ctxt = wc_read_fd callback junk2 fd ctxt.
Proof. apply wc_read_fd_junk. Qed.

(** X9: a reader thread that runs alone does to the table what the calls
    of [wc_new_word_callback] on the words of its stream do, in the order
    of the stream. *)
Theorem reader_records_its_words (junk : nat → Z) (fd : string) (ws : list string)
    (ctxt : wc_Context) :
  wc_words junk fd = Done ws →
  wc_thread_read junk fd ctxt = wc_record_all ws ctxt.
Proof. apply wc_thread_read_words. Qed.

Lemma reader_records_its_words_witness :
  wc_words (λ _, 0) "To be, or not to be." = Done ["to"; "be"; "or"; "not"; "to"; "be"]%string ∧
  wc_thread_read (λ _, 0) "To be, or not to be." [] =
  wc_record_all ["to"; "be"; "or"; "not"; "to"; "be"]%string [].
Proof.
  assert (H : wc_words (λ _, 0) "To be, or not to be." =
              Done ["to"; "be"; "or"; "not"; "to"; "be"]%string) by (vm_compute; reflexivity).
  split; [exact H|]. exact (reader_records_its_words _ _ _ [] H).
Defined.

Lemma c_str_lower (n : nat) : ∀ buf : list Z,
  Forall (λ c, islower c = true) (take n buf) → buf !! n = Some 0 →
  String.length (c_str buf) = n ∧ all_lower (c_str buf) = true.
Proof.
  induction n as [|n IH]; intros [|c buf] Hall Hn; simplify_eq/=; [done|].
  apply Forall_cons in Hall as [Hc Hall].
  assert (97 <= c <= 122) as Hr.
  { unfold islower in Hc. apply andb_prop in Hc as [?%Z.leb_le ?%Z.leb_le]. lia. }
  destruct (Z.eqb_spec c 0); [lia|]. simpl.
  destruct (IH buf Hall Hn) as [-> ->].
  rewrite uchar_char_byte by lia. by rewrite Hc.
Qed.

Lemma wc_read_loop_lower fd :
  ∀ state i buf log ws',
    wc_read_loop wc_collect fd state i buf log = Done ws' →
    0 <= i → length buf = 128%nat →
    (state = WC_IN_WORD ∧ 0 < i) ∨ (state = WC_OUT_OF_WORD ∧ i = 0) →
    Forall (λ c, islower c = true) (take (Z.to_nat i) buf) →
    Forall (λ w, 0 < strlen w < WORD_CAP ∧ all_lower w = true) log →
    Forall (λ w, 0 < strlen w < WORD_CAP ∧ all_lower w = true) ws'.
Proof.
  induction fd as [|a fd IH]; intros state i buf log ws' H Hi Hlen Hst Hbuf Hlog.
  { simpl in H. by simplify_eq. }
  cbn [wc_read_loop] in H. cbv zeta in H.
  destruct (int_to_char (uchar a) =? EOF); [by simplify_eq|].
  destruct (isalpha _) eqn:Ha; simpl in H.
  - unfold buf_store in H. destruct (Z.leb_spec 0 i); [|lia].
    destruct (Z.ltb_spec i WORD_CAP); [|done]. simpl in H.
    eapply IH; [exact H|lia|by rewrite length_insert| | |done].
    + left. split; [|lia]. destruct Hst as [[-> _]|[-> _]]; done.
    + rewrite Z2Nat.inj_add, Nat.add_1_r by lia.
      rewrite (take_S_r _ _ (int_to_char (tolower (to_uchar (int_to_char (uchar a))))))
        by (apply list_lookup_insert_eq; unfold WORD_CAP in *; lia).
      rewrite take_insert_ge by lia. apply Forall_app. split; [done|].
      apply Forall_singleton. by apply isalpha_lower.
  - destruct Hst as [[-> Hpos]|[-> ->]]; simpl in H.
    + unfold buf_store in H. destruct (Z.leb_spec 0 i); [|lia].
      destruct (Z.ltb_spec i WORD_CAP); [|done]. simpl in H.
      eapply IH; [exact H|done|by rewrite length_insert|by right|by rewrite take_0|].
      apply Forall_app. split; [done|]. apply Forall_singleton.
      destruct (c_str_lower (Z.to_nat i) (<[Z.to_nat i := 0]> buf)) as [Hl Hw].
      * by rewrite take_insert_ge by lia.
      * apply list_lookup_insert_eq. unfold WORD_CAP in *. lia.
      * unfold strlen. rewrite Hl. split; [lia|done].
    + eapply IH; [exact H|done|done|by right|by rewrite take_0|done].
Qed.

(** X10: every word that [wc_read_fd] hands to the callback is a non-empty
    string of lower-case ASCII letters, at most 127 of them, so that it
    fits a [word] field with its terminator. *)
Theorem reader_words_are_lower_case (junk : nat → Z) (fd : string) (ws : list string) :
  wc_words junk fd = Done ws →
  Forall (λ w, 0 < strlen w < WORD_CAP ∧ all_lower w = true) ws.
Proof.
  intros H. eapply (wc_read_loop_lower fd); [exact H|done| | | |done].
  - by rewrite length_fmap, length_seq.
  - by right.
  - by rewrite take_0.
Qed.

Lemma reader_words_are_lower_case_witness :
  wc_words (λ _, 7) "Hello, World!" = Done ["hello"; "world"]%string ∧
  Forall (λ w, 0 < strlen w < WORD_CAP ∧ all_lower w = true) ["hello"; "world"]%string.
Proof.
  assert (H : wc_words (λ _, 7) "Hello, World!" = Done ["hello"; "world"]%string)
    by (vm_compute; reflexivity).
  split; [exact H|]. exact (reader_words_are_lower_case _ _ _ H).
Defined.

Lemma int_to_char_EOF u : 0 <= u < 256 → (int_to_char u =? EOF) = (u =? 255).
Proof.
  intros H. unfold int_to_char, EOF.
  destruct (Z.eqb_spec ((u + 128) mod 256 - 128) (-1)), (Z.eqb_spec u 255);
    try done; exfalso; Z.div_mod_to_equations; lia.
Qed.

Lemma is_letter_uchar a : is_letter a = isalpha (uchar a).
Proof. unfold is_letter. by rewrite to_uchar_int_to_char by apply uchar_range. Qed.

Lemma uchar_lower_byte a :
  uchar (lower_byte a) = if isupper (uchar a) then uchar a + 32 else uchar a.
Proof.
  unfold lower_byte. destruct (isupper (uchar a)) eqn:E; [|done].
  unfold isupper in E. apply andb_prop in E as [?%Z.leb_le ?%Z.leb_le].
  unfold uchar at 1. rewrite N_ascii_embedding; lia.
Qed.

(** What the loop looks at in a byte is the same for the byte and its
    lower-case form. *)
Lemma lower_byte_same a :
  (int_to_char (uchar (lower_byte a)) =? EOF) = (int_to_char (uchar a) =? EOF) ∧
  isalpha (to_uchar (int_to_char (uchar (lower_byte a)))) =
    isalpha (to_uchar (int_to_char (uchar a))) ∧
  tolower (to_uchar (int_to_char (uchar (lower_byte a)))) =
    tolower (to_uchar (int_to_char (uchar a))).
Proof.
  pose proof (uchar_range a) as Hr. pose proof (uchar_range (lower_byte a)) as Hr'.
  rewrite !int_to_char_EOF, !to_uchar_int_to_char by done.
  rewrite uchar_lower_byte in *.
  unfold isalpha, tolower, isupper, islower in *.
  destruct (Z.leb_spec 65 (uchar a)), (Z.leb_spec (uchar a) 90); simpl in *;
    (split_and!;
     repeat match goal with |- context [(?a <=? ?b)] => destruct (Z.leb_spec a b) end;
     repeat match goal with |- context [(?a =? ?b)] => destruct (Z.eqb_spec a b) end;
     simpl; try done; lia).
Qed.

Lemma wc_read_loop_lower_stream {C} (callback : string → C → outcome C) fd :
  ∀ state i buf ctxt,
    wc_read_loop callback (lower_stream fd) state i buf ctxt =
    wc_read_loop callback fd state i buf ctxt.
Proof.
  induction fd as [|a fd IH]; intros state i buf ctxt; [done|].
  cbn [lower_stream wc_read_loop]. cbv zeta.
  destruct (lower_byte_same a) as (-> & -> & ->).
  repeat case_match; try done; unfold mbind, outcome_bind;
    repeat case_match; try done; apply IH.
Qed.

(** X11: the reader does not tell upper case from lower case: a stream and
    the same stream with every upper-case ASCII letter replaced by the
    lower-case one give the same calls of the callback and the same
    outcome. *)
Theorem reader_ignores_case {C} (callback : string → C → outcome C)
    (junk : nat → Z) (fd : string) (ctxt : C) :
  wc_read_fd callback junk (lower_stream fd) ctxt = wc_read_fd callback junk fd ctxt.
Proof. apply wc_read_loop_lower_stream. Qed.

Lemma is_delimiter_spec a :
  is_delimiter a = true ↔ isalpha (uchar a) = false ∧ uchar a ≠ 255.
Proof.
  unfold is_delimiter. rewrite is_letter_uchar, int_to_char_EOF by apply uchar_range.
  destruct (isalpha (uchar a)), (Z.eqb_spec (uchar a) 255); simpl;
    intuition congruence.
Qed.

Lemma wc_read_loop_delimiters {C} (callback : string → C → outcome C) d1 d2 s1 s2 :
  is_delimiter d1 = true → is_delimiter d2 = true →
  ∀ state i buf ctxt,
    wc_read_loop callback (s1 +:+ String d1 s2) state i buf ctxt =
    wc_read_loop callback (s1 +:+ String d2 s2) state i buf ctxt.
Proof.
  intros [H1 H1']%andb_prop [H2 H2']%andb_prop.
  apply negb_true_iff in H1, H1', H2, H2'. unfold is_letter in H1, H2.
  induction s1 as [|a s1 IH]; intros state i buf ctxt.
  - change (EmptyString +:+ String d1 s2) with (String d1 s2).
    change (EmptyString +:+ String d2 s2) with (String d2 s2).
    cbn [wc_read_loop]. cbv zeta. by rewrite H1, H1', H2, H2'.
  - rewrite <- !append_comm_cons_str. cbn [wc_read_loop]. cbv zeta.
    repeat case_match; try done; unfold mbind, outcome_bind;
      repeat case_match; try done; apply IH.
Qed.

(** X12: all delimiters are alike to the reader.  A byte is a delimiter
    when it is no ASCII letter and not 0xFF: digits, punctuation, white
    space, NUL and the bytes 128 to 254 all end a word and nothing else;
    replacing one delimiter of a stream by another changes neither the
    calls of the callback nor the outcome. *)
Theorem reader_delimiters_alike {C} (callback : string → C → outcome C)
    (junk : nat → Z) (d1 d2 : ascii) (s1 s2 : string) (ctxt : C) :
  is_delimiter d1 = true → is_delimiter d2 = true →
  (isalpha (uchar d1) = false ∧ uchar d1 ≠ 255) ∧
  wc_read_fd callback junk (s1 +:+ String d1 s2) ctxt =
  wc_read_fd callback junk (s1 +:+ String d2 s2) ctxt.
Proof.
  intros H1 H2. split; [by apply is_delimiter_spec|].
  by apply wc_read_loop_delimiters.
Qed.

Lemma reader_delimiters_alike_witness :
  is_delimiter "0" = true ∧ is_delimiter (ascii_of_nat 200) = true ∧
  (isalpha (uchar "0") = false ∧ uchar "0" ≠ 255) ∧
  wc_read_fd wc_collect (λ _, 0) ("ab" +:+ String "0" "cd ") [] =
  wc_read_fd wc_collect (λ _, 0) ("ab" +:+ String (ascii_of_nat 200) "cd ") [].
Proof.
  assert (H1 : is_delimiter "0" = true) by (vm_compute; reflexivity).
  assert (H2 : is_delimiter (ascii_of_nat 200) = true) by (vm_compute; reflexivity).
  split; [exact H1|]. split; [exact H2|].
  exact (reader_delimiters_alike wc_collect (λ _, 0) "0" (ascii_of_nat 200)
           "ab" "cd " [] H1 H2).
Defined.

Lemma wc_read_loop_short_runs fd :
  ∀ (n : nat) state buf log,
    short_runs fd n = true → (n <= 127)%nat →
    is_done (wc_read_loop wc_collect fd state (Z.of_nat n) buf log) = true.
Proof.
  induction fd as [|a fd IH]; intros n state buf log Hs Hn; [done|].
  cbn [wc_read_loop short_runs] in *. cbv zeta.
  destruct (int_to_char (uchar a) =? EOF); [done|].
  unfold is_letter in Hs. destruct (isalpha _); simpl.
  - apply andb_prop in Hs as [Hlt%Nat.ltb_lt Hs].
    unfold buf_store. destruct (Z.leb_spec 0 (Z.of_nat n)); [|lia].
    destruct (Z.ltb_spec (Z.of_nat n) WORD_CAP); [|unfold WORD_CAP in *; lia]. simpl.
    replace (Z.of_nat n + 1) with (Z.of_nat (S n)) by lia. apply IH; [done|lia].
  - destruct (state =? WC_IN_WORD); [|by apply (IH 0%nat); [|lia]].
    unfold buf_store. destruct (Z.leb_spec 0 (Z.of_nat n)); [|lia].
    destruct (Z.ltb_spec (Z.of_nat n) WORD_CAP); [|unfold WORD_CAP in *; lia]. simpl.
    apply (IH 0%nat); [done|lia].
Qed.

(** X13: the reader stays inside [buf] for every stream whose runs of
    letters (up to the first byte 0xFF) are at most 127 letters long: it
    delivers its words without a store past the end of the buffer. *)
Theorem reader_safe_on_short_runs (junk : nat → Z) (fd : string) :
  short_runs fd 0 = true → ∃ ws, wc_words junk fd = Done ws.
Proof.
  intros H. pose proof (wc_read_loop_short_runs fd 0 WC_OUT_OF_WORD
                          (junk <$> seq 0 128) [] H ltac:(lia)) as Hd.
  unfold wc_words, wc_read_fd. simpl Z.of_nat in Hd.
  destruct (wc_read_loop _ _ _ _ _ _); [eauto|done].
Qed.

Lemma reader_safe_on_short_runs_witness :
  short_runs (letters "a" 127 +:+ " " +:+ letters "B" 127 +:+ ".") 0 = true ∧
  ∃ ws, wc_words (λ _, 0) (letters "a" 127 +:+ " " +:+ letters "B" 127 +:+ ".") = Done ws.
Proof.
  assert (H : short_runs (letters "a" 127 +:+ " " +:+ letters "B" 127 +:+ ".") 0 = true)
    by (vm_compute; reflexivity).
  split; [exact H|]. exact (reader_safe_on_short_runs _ _ H).
Defined.

Lemma wc_read_loop_compose {C} (callback : string → C → outcome C) d s2 s0 :
  is_delimiter d = true → no_end_byte s0 = true →
  ∀ state i buf buf0 ctxt,
    0 <= i → length buf = 128%nat → length buf0 = 128%nat →
    wc_read_loop callback (s0 +:+ String d s2) state i buf ctxt =
    (ctxt' ← wc_read_loop callback (s0 +:+ String d EmptyString) state i buf ctxt;
     wc_read_loop callback s2 WC_OUT_OF_WORD 0 buf0 ctxt').
Proof.
  intros [Hd Hd']%andb_prop. apply negb_true_iff in Hd, Hd'. unfold is_letter in Hd.
  induction s0 as [|a s0 IH]; intros Hs0 state i buf buf0 ctxt Hi Hlen Hlen0.
  - change (EmptyString +:+ String d s2) with (String d s2).
    change (EmptyString +:+ String d EmptyString) with (String d EmptyString).
    cbn [wc_read_loop]. cbv zeta. rewrite Hd, Hd'. simpl.
    destruct (state =? WC_IN_WORD).
    + unfold buf_store. destruct ((0 <=? i) && (i <? WORD_CAP)); simpl; [|done].
      destruct (callback _ ctxt); simpl; [|done].
      apply wc_read_loop_junk; [done|by rewrite length_insert|done|done].
    + by apply wc_read_loop_junk.
  - simpl in Hs0. apply andb_prop in Hs0 as [Ha Hs0]. apply negb_true_iff in Ha.
    rewrite <- !append_comm_cons_str. cbn [wc_read_loop]. cbv zeta. rewrite Ha.
    destruct (negb (isalpha _)).
    + destruct (state =? WC_IN_WORD); [|by apply IH].
      unfold buf_store. destruct ((0 <=? i) && (i <? WORD_CAP)); simpl; [|done].
      destruct (callback _ ctxt); simpl; [|done].
      apply IH; [done|done|by rewrite length_insert|done].
    + unfold buf_store. destruct ((0 <=? i) && (i <? WORD_CAP)) eqn:E; simpl; [|done].
      apply IH; [done|lia|by rewrite length_insert|done].
Qed.

(** X14: a stream can be read in two parts when it is cut after a
    delimiter: if the first part holds no byte 0xFF, reading the whole
    stream does what reading the first part up to and including the
    delimiter and then the rest does. *)
Theorem reader_composes_at_delimiter {C} (callback : string → C → outcome C)
    (junk : nat → Z) (s0 : string) (d : ascii) (s2 : string) (ctxt : C) :
  no_end_byte s0 = true → is_delimiter d = true →
  wc_read_fd callback junk (s0 +:+ String d s2) ctxt =
  (ctxt' ← wc_read_fd callback junk (s0 +:+ String d EmptyString) ctxt;
   wc_read_fd callback junk s2 ctxt').
Proof.
  intros H0 Hd. unfold wc_read_fd.
  apply wc_read_loop_compose; [done|done|done|..]; by rewrite length_fmap, length_seq.
Qed.

Lemma reader_composes_at_delimiter_witness :
  no_end_byte "the cat" = true ∧ is_delimiter " " = true ∧
  wc_read_fd wc_new_word_callback (λ _, 0) ("the cat" +:+ String " " "the dog ") [] =
  (ctxt' ← wc_read_fd wc_new_word_callback (λ _, 0) ("the cat" +:+ String " " EmptyString) [];
   wc_read_fd wc_new_word_callback (λ _, 0) "the dog " ctxt').
Proof.
  assert (H0 : no_end_byte "the cat" = true) by (vm_compute; reflexivity).
  assert (Hd : is_delimiter " " = true) by (vm_compute; reflexivity).
  split; [exact H0|]. split; [exact Hd|].
  exact (reader_composes_at_delimiter wc_new_word_callback (λ _, 0) "the cat" " "
           "the dog " [] H0 Hd).
Defined.

(** ** [main] *)

Lemma opens_cons i n : 0 < n → opens i n = Fopen i :: CreateReader i :: opens (i + 1) (n - 1).
Proof. intros H. unfold opens. by rewrite seqZ_cons by done. Qed.

Lemma joins_cons i n : 0 < n → joins i n = JoinReader i :: joins (i + 1) (n - 1).
Proof. intros H. unfold joins. by rewrite seqZ_cons by done. Qed.

Lemma main_open_loop_opens env (n : nat) : ∀ i k,
  i + Z.of_nat n <= THREADS_CAP →
  (∀ j, i <= j < i + Z.of_nat n →
        fopen_ok env j = true ∧ pthread_ok env (CreateReader j) = true) →
  main_open_loop env n i k = opens i (Z.of_nat n) ++ k.
Proof.
  induction n as [|n IH]; intros i k Hcap Hok; [done|].
  cbn [main_open_loop]. destruct (Z.leb_spec THREADS_CAP i); [lia|].
  destruct (Hok i ltac:(lia)) as [-> ->]. cbn [negb].
  rewrite opens_cons by lia. rewrite IH; [|lia|intros j ?; apply Hok; lia].
  simpl. do 4 f_equal. lia.
Qed.

Lemma main_join_loop_joins env (n : nat) : ∀ i k,
  i + Z.of_nat n <= THREADS_CAP →
  (∀ j, i <= j < i + Z.of_nat n → pthread_ok env (JoinReader j) = true) →
  main_join_loop env n i k = joins i (Z.of_nat n) ++ k.
Proof.
  induction n as [|n IH]; intros i k Hcap Hok; [done|].
  cbn [main_join_loop]. destruct (Z.leb_spec THREADS_CAP i); [lia|].
  rewrite (Hok i) by lia. cbn [negb].
  rewrite joins_cons by lia. rewrite IH; [|lia|intros j ?; apply Hok; lia].
  simpl. do 3 f_equal. lia.
Qed.

(** X15: with at most nine file arguments and every call succeeding,
    [main] creates the reader of standard input and one reader per file,
    in the order of the arguments, then the printer; joins the readers in
    that order; cancels and joins the printer; takes the mutex, prints the
    table once more and releases the mutex; and exits with status 0. *)
Theorem main_runs_to_completion (argc : Z) :
  1 <= argc <= THREADS_CAP →
  main argc env_ok =
    CreateReader 0 :: opens 1 (argc - 1) ++
    CreatePrinter :: joins 0 argc ++
    [CancelPrinter; JoinPrinter; LockMtx; PrintWords; UnlockMtx; Exit EXIT_SUCCESS].
Proof.
  intros H. unfold main. simpl pthread_ok. cbn [negb].
  rewrite main_open_loop_opens by (done || lia).
  rewrite main_join_loop_joins by (done || lia).
  by rewrite !Z2Nat.id by lia.
Qed.

Lemma main_runs_to_completion_witness :
  1 <= 3 <= THREADS_CAP ∧
  main 3 env_ok =
    CreateReader 0 :: opens 1 (3 - 1) ++
    CreatePrinter :: joins 0 3 ++
    [CancelPrinter; JoinPrinter; LockMtx; PrintWords; UnlockMtx; Exit EXIT_SUCCESS].
Proof.
  assert (H : 1 <= 3 <= THREADS_CAP) by (unfold THREADS_CAP; lia).
  split; [exact H|]. exact (main_runs_to_completion 3 H).
Defined.

Lemma main_open_loop_ends env (n : nat) : ∀ i k,
  ∃ pre, Forall (λ a, is_progress a = true) pre ∧
    (main_open_loop env n i k = pre ++ k ∨
     main_open_loop env n i k = pre ++ [Exit EXIT_FAILURE] ∨
     ∃ j, main_open_loop env n i k = pre ++ [Crash (ThreadArrayOverrun j)] ∧
          THREADS_CAP <= j < i + Z.of_nat n).
Proof.
  induction n as [|n IH]; intros i k.
  { exists []. split; [constructor|by left]. }
  cbn [main_open_loop]. destruct (Z.leb_spec THREADS_CAP i).
  { exists []. split; [constructor|]. right. right. exists i. split; [done|lia]. }
  destruct (fopen_ok env i); cbn [negb].
  2:{ exists [Fopen i]. split; [by repeat constructor|]. right. by left. }
  destruct (pthread_ok env (CreateReader i)); cbn [negb].
  2:{ exists [Fopen i; CreateReader i]. split; [by repeat constructor|]. right. by left. }
  destruct (IH (i + 1) k) as (pre & Hpre & Hcases).
  exists (Fopen i :: CreateReader i :: pre). split; [by repeat constructor|].
  destruct Hcases as [->|[->|(j & -> & Hj)]]; [by left|right; by left|].
  right. right. exists j. split; [done|lia].
Qed.

Lemma main_join_loop_ends env (n : nat) : ∀ i k,
  ∃ pre, Forall (λ a, is_progress a = true) pre ∧
    (main_join_loop env n i k = pre ++ k ∨
     main_join_loop env n i k = pre ++ [Exit EXIT_FAILURE] ∨
     ∃ j, main_join_loop env n i k = pre ++ [Crash (ThreadArrayOverrun j)] ∧
          THREADS_CAP <= j < i + Z.of_nat n).
Proof.
  induction n as [|n IH]; intros i k.
  { exists []. split; [constructor|by left]. }
  cbn [main_join_loop]. destruct (Z.leb_spec THREADS_CAP i).
  { exists []. split; [constructor|]. right. right. exists i. split; [done|lia]. }
  destruct (pthread_ok env (JoinReader i)); cbn [negb].
  2:{ exists [JoinReader i]. split; [by repeat constructor|]. right. by left. }
  destruct (IH (i + 1) k) as (pre & Hpre & Hcases).
  exists (JoinReader i :: pre). split; [by repeat constructor|].
  destruct Hcases as [->|[->|(j & -> & Hj)]]; [by left|right; by left|].
  right. right. exists j. split; [done|lia].
Qed.

(** X16: [main] ends in one of four ways, whatever [argc] is and whatever
    [fopen] and the pthread calls of [main] and of its final
    [wc_print_words] return.  It exits with [EXIT_FAILURE] before anything
    of the final report is printed; or, having cancelled and joined the
    printer and taken the mutex, it prints the final report and then either
    exits with [EXIT_FAILURE], when the release of the mutex fails, or with
    [EXIT_SUCCESS]; or it stores past the end of its thread arrays, which
    takes ten or more file arguments.  Nothing follows the exit, and
    [main] prints no report before the end. *)
Theorem main_ends_in_four_ways (argc : Z) (env : environment) :
  ∃ pre last,
    main argc env = pre ++ last ∧
    Forall (λ a, is_progress a = true) pre ∧
    (last = [Exit EXIT_FAILURE] ∨
     (last = [PrintWords; UnlockMtx; Exit EXIT_FAILURE] ∧
        pthread_ok env UnlockMtx = false ∧
        ∃ pre', pre = pre' ++ [CancelPrinter; JoinPrinter; LockMtx]) ∨
     (last = [PrintWords; UnlockMtx; Exit EXIT_SUCCESS] ∧
        ∃ pre', pre = pre' ++ [CancelPrinter; JoinPrinter; LockMtx]) ∨
     ∃ j, last = [Crash (ThreadArrayOverrun j)] ∧ THREADS_CAP <= j ∧ 11 <= argc).
Proof.
  unfold main.
  destruct (pthread_ok env (CreateReader 0)); cbn [negb].
  2:{ exists [CreateReader 0], [Exit EXIT_FAILURE]. split_and!; [done| |by left].
      by repeat constructor. }
  set (k2 := if negb (pthread_ok env CancelPrinter) then _ else _).
  set (k1 := if negb (pthread_ok env CreatePrinter) then _ else _).
  assert (Hk2 : ∃ pre last, k2 = pre ++ last ∧ Forall (λ a, is_progress a = true) pre ∧
            (last = [Exit EXIT_FAILURE] ∨
             (last = [PrintWords; UnlockMtx; Exit EXIT_FAILURE] ∧
                pthread_ok env UnlockMtx = false ∧
                ∃ pre', pre = pre' ++ [CancelPrinter; JoinPrinter; LockMtx]) ∨
             (last = [PrintWords; UnlockMtx; Exit EXIT_SUCCESS] ∧
                ∃ pre', pre = pre' ++ [CancelPrinter; JoinPrinter; LockMtx]))).
  { unfold k2, main_print_words. destruct (pthread_ok env CancelPrinter); cbn [negb].
    2:{ exists [CancelPrinter], [Exit EXIT_FAILURE]. split_and!; [done| |by left].
        by repeat constructor. }
    destruct (pthread_ok env JoinPrinter); cbn [negb].
    2:{ exists [CancelPrinter; JoinPrinter], [Exit EXIT_FAILURE].
        split_and!; [done| |by left]. by repeat constructor. }
    destruct (pthread_ok env LockMtx); cbn [negb].
    2:{ exists [CancelPrinter; JoinPrinter; LockMtx], [Exit EXIT_FAILURE].
        split_and!; [done| |by left]. by repeat constructor. }
    destruct (pthread_ok env UnlockMtx) eqn:Hu; cbn [negb].
    - exists [CancelPrinter; JoinPrinter; LockMtx], [PrintWords; UnlockMtx; Exit EXIT_SUCCESS].
      split_and!; [done|by repeat constructor|]. right. right.
      split; [done|]. by exists [].
    - exists [CancelPrinter; JoinPrinter; LockMtx], [PrintWords; UnlockMtx; Exit EXIT_FAILURE].
      split_and!; [done|by repeat constructor|]. right. left.
      split_and!; [done..|]. by exists []. }
  assert (Hk1 : ∃ pre last, k1 = pre ++ last ∧ Forall (λ a, is_progress a = true) pre ∧
            (last = [Exit EXIT_FAILURE] ∨
             (last = [PrintWords; UnlockMtx; Exit EXIT_FAILURE] ∧
                pthread_ok env UnlockMtx = false ∧
                ∃ pre', pre = pre' ++ [CancelPrinter; JoinPrinter; LockMtx]) ∨
             (last = [PrintWords; UnlockMtx; Exit EXIT_SUCCESS] ∧
                ∃ pre', pre = pre' ++ [CancelPrinter; JoinPrinter; LockMtx]) ∨
             ∃ j, last = [Crash (ThreadArrayOverrun j)] ∧ THREADS_CAP <= j ∧ 11 <= argc)).
  { unfold k1. destruct (pthread_ok env CreatePrinter); cbn [negb].
    2:{ exists [CreatePrinter], [Exit EXIT_FAILURE]. split_and!; [done| |by left].
        by repeat constructor. }
    destruct (main_join_loop_ends env (Z.to_nat argc) 0 k2) as (pre & Hpre & Hc).
    destruct Hc as [->|[->|(j & -> & Hj)]].
    - destruct Hk2 as (pre2 & last & -> & Hpre2 & Hlast).
      exists (CreatePrinter :: pre ++ pre2), last. split_and!.
      + simpl. by rewrite <- app_assoc.
      + constructor; [done|]. by apply Forall_app.
      + destruct Hlast as [->|[(-> & Hu & pre' & ->)|(-> & pre' & ->)]]; [by left| |].
        * right. left. split_and!; [done..|]. exists (CreatePrinter :: pre ++ pre').
          simpl. by rewrite <- !app_assoc.
        * right. right. left. split; [done|]. exists (CreatePrinter :: pre ++ pre').
          simpl. by rewrite <- !app_assoc.
    - exists (CreatePrinter :: pre), [Exit EXIT_FAILURE].
      split_and!; [done|by constructor|by left].
    - exists (CreatePrinter :: pre), [Crash (ThreadArrayOverrun j)].
      split_and!; [done|by constructor|]. right. right. right. exists j.
      unfold THREADS_CAP in *. split_and!; [done|lia|lia]. }
  destruct (main_open_loop_ends env (Z.to_nat (argc - 1)) 1 k1) as (pre & Hpre & Hc).
  destruct Hc as [->|[->|(j & -> & Hj)]].
  - destruct Hk1 as (pre1 & last & -> & Hpre1 & Hlast).
    exists (CreateReader 0 :: pre ++ pre1), last. split_and!.
    + simpl. by rewrite <- app_assoc.
    + constructor; [done|]. by apply Forall_app.
    + destruct Hlast as [->|[(-> & Hu & pre' & ->)|[(-> & pre' & ->)|?]]];
        [by left| | |by right; right; right].
      * right. left. split_and!; [done..|]. exists (CreateReader 0 :: pre ++ pre').
        simpl. by rewrite <- !app_assoc.
      * right. right. left. split; [done|]. exists (CreateReader 0 :: pre ++ pre').
        simpl. by rewrite <- !app_assoc.
  - exists (CreateReader 0 :: pre), [Exit EXIT_FAILURE].
    split_and!; [done|by constructor|by left].
  - exists (CreateReader 0 :: pre), [Crash (ThreadArrayOverrun j)].
    split_and!; [done|by constructor|]. right. right. right. exists j.
    unfold THREADS_CAP in *. split_and!; [done|lia|lia].
Qed.

Lemma main_open_loop_missing env (n : nat) : ∀ i j k,
  i <= j < i + Z.of_nat n → j < THREADS_CAP →
  (∀ x, i <= x < j → fopen_ok env x = true ∧ pthread_ok env (CreateReader x) = true) →
  fopen_ok env j = false →
  main_open_loop env n i k = opens i (j - i) ++ [Fopen j; Exit EXIT_FAILURE].
Proof.
  induction n as [|n IH]; intros i j k Hj Hcap Hok Hmiss; [lia|].
  cbn [main_open_loop]. destruct (Z.leb_spec THREADS_CAP i); [lia|].
  destruct (decide (i = j)) as [->|Hne].
  - rewrite Hmiss. cbn [negb]. by rewrite Z.sub_diag.
  - destruct (Hok i ltac:(lia)) as [-> ->]. cbn [negb].
    rewrite opens_cons by lia.
    rewrite (IH (i + 1) j); [|lia|done|intros x ?; apply Hok; lia|done].
    simpl. do 4 f_equal. lia.
Qed.

(** X17: when a file cannot be opened, [main] exits with [EXIT_FAILURE]
    right after the failed [fopen]: the readers of standard input and of
    the files before it are created and left running, no printer is
    created, no thread is joined and the table is not printed. *)
Theorem main_stops_at_missing_file (argc j : Z) (env : environment) :
  1 <= j < argc → j < THREADS_CAP →
  pthread_ok env (CreateReader 0) = true →
  (∀ x, 1 <= x < j → fopen_ok env x = true ∧ pthread_ok env (CreateReader x) = true) →
  fopen_ok env j = false →
  main argc env = CreateReader 0 :: opens 1 (j - 1) ++ [Fopen j; Exit EXIT_FAILURE].
Proof.
  intros Hj Hcap H0 Hok Hmiss. unfold main. rewrite H0. cbn [negb].
  by rewrite (main_open_loop_missing env _ 1 j) by (done || lia).
Qed.

Lemma main_stops_at_missing_file_witness :
  main 4 (env_missing 2) =
  CreateReader 0 :: opens 1 (2 - 1) ++ [Fopen 2; Exit EXIT_FAILURE] ∧
  main 4 (env_missing 2) =
  [CreateReader 0; Fopen 1; CreateReader 1; Fopen 2; Exit EXIT_FAILURE].
Proof.
  split; [|reflexivity].
  apply (main_stops_at_missing_file 4 2 (env_missing 2)).
  - lia.
  - unfold THREADS_CAP. lia.
  - reflexivity.
  - intros x Hx. assert (x = 1) as -> by lia. split; reflexivity.
  - reflexivity.
Defined.

(** ** The threads, one step at a time *)

Lemma wc_store_found_count T buf found T' w :
  wc_store_found T buf found = Done T' → wc_count T w <= wc_count T' w.
Proof.
  unfold wc_store_found. intros H. repeat case_match; simplify_eq.
  - rewrite wc_count_app. simpl. case_decide; lia.
  - erewrite wc_count_insert by done. simpl. case_decide; lia.
Qed.

Lemma step_count_mono s s' w : step s s' → wc_count (table s) w <= wc_count (table s') w.
Proof.
  intros [| |T T' m rs p o i ws w0 found Hi Hst| | | | | | |]; simpl; try lia.
  - by eapply wc_store_found_count.
  - by rewrite qsort_perm.
Qed.

Lemma step_out_prefix s s' : step s s' → out s `prefix_of` out s'.
Proof. intros []; simpl; try done; by apply prefix_app_r. Qed.

(** X18: from any state to any state the threads can take it to, no count
    of the table has gone down and the output has only been added to at
    its end: a reader never removes an entry or lowers a count, and
    nothing that was printed is taken back. *)
Theorem counts_and_output_only_grow (s s' : sys) :
  rtc step s s' →
  (∀ w, wc_count (table s) w <= wc_count (table s') w) ∧
  out s `prefix_of` out s'.
Proof.
  induction 1 as [|s1 s2 s3 Hstep _ [IHc IHo]]; [done|]. split.
  - intros w. pose proof (step_count_mono _ _ w Hstep). specialize (IHc w). lia.
  - etrans; [by apply step_out_prefix|done].
Qed.

Lemma counts_and_output_only_grow_witness :
  rtc step (sys_init demo_wss) demo_final ∧
  (∀ w, wc_count (table (sys_init demo_wss)) w <= wc_count (table demo_final) w) ∧
  out (sys_init demo_wss) `prefix_of` out demo_final.
Proof.
  split; [exact demo_run|].
  exact (counts_and_output_only_grow (sys_init demo_wss) demo_final demo_run).
Defined.

(** The table the printer reads is one left behind by whole calls. *)
Lemma printing_snapshot wss s :
  sys_inv wss s → printer s ≠ PSleep → snapshot_of wss (table s).
Proof.
  intros (bufs & T0 & snaps & [Hw Hc Hp Hs Hmr Hmp Hf Hl Hsn Ho Hh]) Hpr.
  exists bufs. split.
  - rewrite <- Hw. by apply submseteq_inserts_r.
  - rewrite Hs; [done|]. intros j x Hj.
    by rewrite (readers_idle _ _ Hmr (or_intror (Hmp Hpr)) j x Hj).
Qed.

(** While a reader is inside the callback the printer is asleep. *)
Lemma reader_inside_printer_asleep wss s i r :
  sys_inv wss s → readers s !! i = Some r → rat r ≠ RIdle → printer s = PSleep.
Proof.
  intros (bufs & T0 & snaps & [Hw Hc Hp Hs Hmr Hmp Hf Hl Hsn Ho Hh]) Hi Hr.
  by destruct (holder_alone _ _ _ i r Hmr Hmp Hi Hr) as (_ & ? & _).
Qed.

Lemma wc_le_refl T : wc_le T T.
Proof. by intros w. Qed.

Lemma wc_le_trans T1 T2 T3 : wc_le T1 T2 → wc_le T2 T3 → wc_le T1 T3.
Proof. intros H1 H2 w. specialize (H1 w). specialize (H2 w). lia. Qed.

Lemma step_reports_inv wss s s' snaps :
  step s s' → sys_inv wss s → reports_inv wss s snaps →
  ∃ snaps', reports_inv wss s' snaps'.
Proof.
  intros Hstep Hinv (Ho & Hsn & Hch & Hle).
  assert (Hle' : Forall (λ T, wc_le T (table s')) snaps).
  { eapply Forall_impl; [exact Hle|]. intros T HT. eapply wc_le_trans; [exact HT|].
    intros w. by apply step_count_mono. }
  pose proof (printing_snapshot wss s Hinv) as Hsnap.
  pose proof (λ i r, reader_inside_printer_asleep wss s i r Hinv) as Hasleep.
  destruct Hinv as (bufs & T0 & snaps0 & [_ _ _ _ _ _ _ Hl _ _ _]).
  destruct Hstep as [T rs p o i w rest Hi|T m rs p o i ws w Hi
    |T T' m rs p o i ws w found Hi Hst|T m rs p o i ws Hi|T m rs p o i ws Hi
    |T rs o|T m rs o|T m rs o i e Hi0 He|T m rs o i Hlen|T m rs o]; simpl in *.
  - by exists snaps.
  - by exists snaps.
  - exists snaps. by rewrite (Hasleep i _ Hi) in * by done.
  - exists snaps. by rewrite (Hasleep i _ Hi) in * by done.
  - by exists snaps.
  - by exists snaps.
  - exists snaps. split_and!; [|done..]. rewrite Ho. simpl. by rewrite app_nil_r.
  - exists snaps. split_and!; [|done..]. rewrite Ho. simpl.
    rewrite Z2Nat.inj_add by lia.
    change (Z.to_nat 1) with 1%nat. rewrite Nat.add_1_r.
    rewrite (take_S_r _ _ _ He), fmap_app. simpl.
    by rewrite <- app_assoc.
  - exists (snaps ++ [T]). split_and!.
    + rewrite Ho, fmap_app, concat_app. simpl.
      rewrite take_ge by (unfold len in Hlen; lia).
      rewrite app_nil_r, <- !app_assoc. done.
    + apply Forall_app. split; [done|]. repeat constructor. by apply Hsnap.
    + apply StronglySorted_app. split_and!; [|done|repeat constructor].
      intros T1 T2 H1 ->%list_elem_of_singleton.
      by apply (proj1 (Forall_forall _ _) Hle).
    + apply Forall_app. split; [done|]. repeat constructor. apply wc_le_refl.
  - by exists snaps.
Qed.

Lemma reports_inv_reachable wss s :
  rtc step (sys_init wss) s → sys_inv wss s ∧ ∃ snaps, reports_inv wss s snaps.
Proof.
  intros H.
  apply (rtc_ind_r (R := step)
           (λ s, sys_inv wss s ∧ ∃ snaps, reports_inv wss s snaps) (sys_init wss));
    [| |done].
  - split; [apply sys_inv_init|]. exists []. split_and!; by constructor.
  - intros y z _ Hstep [Hy [snaps Hr]]. split; [by eapply step_sys_inv|].
    by eapply step_reports_inv.
Qed.

(** What a table left behind by whole calls looks like. *)
Lemma snapshot_of_report wss T :
  snapshot_of wss T →
  StronglySorted report_before T ∧ NoDup (word <$> T) ∧
  ∀ e, e ∈ T → 0 < freq e <= occurrences (word e) (concat wss).
Proof.
  intros (bufs & Hsub & Hc).
  destruct (wc_record_all_spec _ _ _ Hc wc_wf_nil) as ([Hnd Hpos] & _ & Hs & _).
  destruct (wc_record_all_tallies _ _ Hc) as (_ & _ & Hfreq).
  split_and!; [|done|].
  - apply sorted_report_before; [done|]. apply Hs. constructor.
  - intros e He. split; [by apply (proj1 (Forall_forall _ _) Hpos)|].
    rewrite (Hfreq e He).
    apply submseteq_Permutation in Hsub as [rest Hrest].
    rewrite Hrest, occurrences_app. pose proof (occurrences_nonneg (word e) rest). lia.
Qed.

(** X19: at every moment of every interleaving the output is a sequence of
    whole reports followed by the part of the report the printer is in the
    middle of.  Each whole report lists a table in the order of the report
    (descending count, ties by ascending word), no word twice, every count
    at least 1 and never above the number of times the word occurs in all
    the readers' words together; and from one report to the next, and from
    the last report to the table as it is now, no count goes down. *)
Theorem reports_sorted_and_growing (wss : list (list string)) (s : sys) :
  rtc step (sys_init wss) s →
  ∃ snaps,
    out s = concat (wc_print_words <$> snaps) ++ partial_report (printer s) (table s) ∧
    Forall (λ T, StronglySorted report_before T ∧ NoDup (word <$> T) ∧
                 ∀ e, e ∈ T → 0 < freq e <= occurrences (word e) (concat wss)) snaps ∧
    StronglySorted wc_le snaps ∧
    Forall (λ T, wc_le T (table s)) snaps.
Proof.
  intros [_ [snaps (Ho & Hsn & Hch & Hle)]]%reports_inv_reachable.
  exists snaps. split_and!; [done| |done..].
  eapply Forall_impl; [exact Hsn|]. apply snapshot_of_report.
Qed.

Lemma reports_sorted_and_growing_witness :
  rtc step (sys_init demo_wss) demo_final ∧
  ∃ snaps,
    out demo_final =
      concat (wc_print_words <$> snaps) ++
      partial_report (printer demo_final) (table demo_final) ∧
    Forall (λ T, StronglySorted report_before T ∧ NoDup (word <$> T) ∧
                 ∀ e, e ∈ T → 0 < freq e <= occurrences (word e) (concat demo_wss)) snaps ∧
    StronglySorted wc_le snaps ∧
    Forall (λ T, wc_le T (table demo_final)) snaps.
Proof.
  split; [exact demo_run|].
  exact (reports_sorted_and_growing demo_wss demo_final demo_run).
Defined.

(** X20: at every moment of every interleaving, also in the middle of a
    call of the callback, every word the readers were given is accounted
    for exactly once: for each word, the count the table holds plus the
    number of its occurrences that the readers have not stored yet is the
    number of its occurrences in all the readers' words.  The table has no
    word twice, its counts are positive, and it is inside its arrays and
    its counters inside [int]. *)
Theorem words_accounted_for (wss : list (list string)) (s : sys) :
  rtc step (sys_init wss) s →
  (∀ w, wc_count (table s) w + occurrences w (concat (todo <$> readers s)) =
        occurrences w (concat wss)) ∧
  wc_total (table s) + Z.of_nat (length (concat (todo <$> readers s))) =
    Z.of_nat (length (concat wss)) ∧
  wc_wf (table s) ∧ wc_bounded (table s).
Proof.
  intros (bufs & T0 & snaps & [Hw Hc Hp Hs Hmr Hmp Hf Hl Hsn Ho Hh])%sys_inv_reachable.
  destruct (wc_record_all_spec _ _ _ Hc wc_wf_nil) as (Hwf & Hb & _ & Hcount).
  split_and!.
  - intros w. rewrite Hp, Hcount, <- Hw, occurrences_app. simpl. lia.
  - rewrite Hp, (wc_record_all_total _ _ _ Hc), <- Hw, length_app. simpl. lia.
  - by rewrite Hp.
  - rewrite Hp. apply Hb, wc_bounded_nil.
Qed.

Lemma words_accounted_for_witness :
  rtc step (sys_init demo_wss) demo_final ∧
  (∀ w, wc_count (table demo_final) w +
        occurrences w (concat (todo <$> readers demo_final)) =
        occurrences w (concat demo_wss)) ∧
  wc_total (table demo_final) +
    Z.of_nat (length (concat (todo <$> readers demo_final))) =
    Z.of_nat (length (concat demo_wss)) ∧
  wc_wf (table demo_final) ∧ wc_bounded (table demo_final).
Proof.
  split; [exact demo_run|].
  exact (words_accounted_for demo_wss demo_final demo_run).
Defined.

(** A state the threads can reach has a next step, unless the thread that
    holds the mutex is a reader about to make an undefined store. *)
Lemma sys_inv_next wss s :
  sys_inv wss s →
  (∃ s', step s s') ∨
  (∃ i ws w f, readers s !! i = Some (Rd ws (RStore w (wc_lookup (table s) w))) ∧
               mtx s = Some (Reader i) ∧
               wc_store_word (table s) w = Undefined f).
Proof.
  intros (bufs & T0 & snaps & [Hw Hc Hp Hs Hmr Hmp Hf Hl Hsn Ho Hh]).
  destruct s as [T m rs p o]. simpl in *.
  destruct m as [[i|]|].
  - destruct (Hh _ eq_refl) as ([ws pc] & Hi & Hr). simpl in Hr.
    destruct pc as [|w|w found| |]; [done| | | |].
    + left. eexists. by eapply step_r_lookup.
    + pose proof (Hf _ _ _ _ Hi eq_refl) as ->.
      destruct (wc_store_found T w (wc_lookup T w)) as [T'|f] eqn:E.
      * left. eexists. by eapply step_r_store.
      * right. exists i, ws, w, f. done.
    + left. eexists. by eapply step_r_sort.
    + left. eexists. by eapply step_r_unlock.
  - left. specialize (Hh _ eq_refl). simpl in Hh.
    destruct p as [| |i|]; [done| | |].
    + eexists. apply step_p_header.
    + specialize (Hl i eq_refl).
      destruct (decide (len T <= i)) as [Hge|Hlt].
      * eexists. by apply step_p_separator.
      * destruct (lookup_lt_is_Some_2 T (Z.to_nat i)) as [e He]; [unfold len in Hlt; lia|].
        eexists. by eapply step_p_line.
    + eexists. apply step_p_unlock.
  - left. destruct (decide (p = PSleep)) as [->|Hne].
    + eexists. apply step_p_lock.
    + by specialize (Hmp Hne).
Qed.

(** ** The end of [main]: the cancelled printer and the mutex *)

Lemma pstep_threads s s' m c :
  rtc step s s' → rtc pstep (Prog s m c false) (Prog s' m c false).
Proof.
  induction 1 as [|s1 s2 s3 Hstep _ IH]; [done|].
  eapply rtc_l; [by apply pstep_thread|done].
Qed.

(** With every reader done, [main] gets through its join loop. *)
Lemma pstep_joins s c g (n : nat) : ∀ i,
  readers_done s → (i + n = length (readers s))%nat →
  rtc pstep (Prog s (MJoin i) c g) (Prog s (MJoin (length (readers s))) c g).
Proof.
  induction n as [|n IH]; intros i Hdone Hn.
  - by replace i with (length (readers s)) by lia.
  - destruct (lookup_lt_is_Some_2 (readers s) i) as [r Hr]; [lia|].
    pose proof (Forall_lookup_1 _ _ _ _ Hdone Hr) as ->.
    eapply rtc_l; [by apply pstep_join|]. apply IH; [done|lia].
Qed.

(** A reader that is done stays as it is, and no reader is added or
    removed. *)
Lemma step_done_reader s s' j :
  step s s' → readers s !! j = Some (Rd [] RIdle) →
  readers s' !! j = Some (Rd [] RIdle).
Proof.
  intros [T rs p o i w rest Hi|T m rs p o i ws w Hi
    |T T' m rs p o i ws w found Hi Hst|T m rs p o i ws Hi|T m rs p o i ws Hi
    |T rs o|T m rs o|T m rs o i e Hi0 He|T m rs o i Hlen|T m rs o] Hj;
    simpl in *; try done;
    (destruct (decide (i = j)) as [->|Hne];
       [by simplify_eq|by rewrite list_lookup_insert_ne]).
Qed.

Lemma step_readers_length s s' : step s s' → length (readers s') = length (readers s).
Proof. intros []; simpl; by rewrite ?length_insert. Qed.

Lemma step_readers_done s s' : step s s' → readers_done s → readers_done s'.
Proof.
  intros Hstep Hdone. apply Forall_lookup_2. intros j r Hj.
  destruct (lookup_lt_is_Some_2 (readers s) j) as [r0 Hr0].
  { rewrite <- (step_readers_length _ _ Hstep). by eapply lookup_lt_Some. }
  pose proof (Forall_lookup_1 _ _ _ _ Hdone Hr0) as ->.
  apply (step_done_reader _ _ _ Hstep) in Hr0. congruence.
Qed.

Lemma prog_inv_init wss : prog_inv wss (prog_init wss).
Proof.
  split; simpl; try done.
  - intros _. split; [done|]. by exists 0%nat.
  - intros i j r [= <-] Hj. lia.
Qed.

Lemma pstep_prog_inv wss P P' : pstep P P' → prog_inv wss P → prog_inv wss P'.
Proof.
  intros Hstep [Ht Hb Ha Hal Hj].
  destruct Hstep as [s s' m c Hstep|s i c g Hi|s g|s m Hcp|s c|T rs p o c g];
    simpl in *.
  - (* a reader or the printer steps *)
    split; simpl.
    + intros Hm. eapply rtc_r; [by apply Ht|done].
    + done.
    + intros Hc. destruct (Ha Hc) as [Hdone Hm]. split; [|done].
      by eapply step_readers_done.
    + done.
    + intros i j r Hm Hlt Hr.
      destruct (lookup_lt_is_Some_2 (readers s) j) as [r0 Hr0].
      { rewrite <- (step_readers_length _ _ Hstep). by eapply lookup_lt_Some. }
      pose proof (Hj i j r0 Hm Hlt Hr0) as ->.
      apply (step_done_reader _ _ _ Hstep) in Hr0. congruence.
  - (* main has joined reader i *)
    split; simpl.
    + intros _. by apply Ht.
    + intros Hc. destruct (Hb Hc) as [Hg _]. split; [done|]. by eexists.
    + intros Hc. destruct (Ha Hc) as [_ Hno]. by specialize (Hno i).
    + done.
    + intros i' j r [= <-] Hlt Hr. destruct (decide (j = i)) as [->|Hne].
      * congruence.
      * apply (Hj i j r eq_refl); [lia|done].
  - (* main leaves the join loop and cancels the printer *)
    split; simpl.
    + intros _. by apply Ht.
    + done.
    + intros _. split; [|done]. apply Forall_lookup_2. intros j r Hr.
      apply (Hj _ j r eq_refl); [by eapply lookup_lt_Some|done].
    + done.
    + done.
  - (* the printer ends at a cancellation point *)
    split; simpl.
    + done.
    + done.
    + done.
    + done.
    + done.
  - (* main has joined the printer *)
    split; simpl.
    + intros _. by apply Ht.
    + intros Hc. by destruct (Hb Hc).
    + intros Hc. destruct (Ha Hc) as [Hdone _]. done.
    + done.
    + done.
  - (* the final report *)
    split; simpl.
    + done.
    + intros Hc. by destruct (Hb Hc) as [_ [i ?]].
    + intros Hc. destruct (Ha Hc) as [Hdone _]. done.
    + intros Hg. by destruct (Hal Hg).
    + done.
Qed.

Lemma prog_inv_reachable wss P : rtc pstep (prog_init wss) P → prog_inv wss P.
Proof.
  intros H.
  apply (rtc_ind_r (R := pstep) (prog_inv wss) (prog_init wss)); [apply prog_inv_init| |done].
  intros y z _ Hstep Hy. by eapply pstep_prog_inv.
Qed.

Lemma sys_inv_next_fits wss s :
  sys_inv wss s → fits (concat wss) → ∃ s', step s s'.
Proof.
  intros Hinv Hfit.
  destruct (sys_inv_next _ _ Hinv) as [?|(i & ws & w & f & Hi & _ & E)]; [done|].
  destruct s as [T m rs p o]. simpl in *.
  destruct (sys_inv_store_defined _ _ _ _ _ _ _ _ _ _ Hinv Hfit Hi) as [T' Hst].
  unfold wc_store_word in E. congruence.
Qed.

Lemma main_blocked_stuck P : main_blocked P → ¬ ∃ P', pstep P P'.
Proof.
  intros (Hm & Hc & Hg & Hmtx) [P' Hstep].
  destruct Hstep; simpl in *; congruence.
Qed.

(** X21: between the creation of the threads and the exit of [main] the
    program comes to a halt in two ways only: the reader that holds the
    mutex is about to store outside the table or to overflow a counter, or
    [main] waits in the [pthread_mutex_lock] of its final [wc_print_words]
    for a mutex that the cancelled printer left locked.  In every other
    state some thread or [main] can take a step, or [main] has reached its
    [exit].  Before [main] calls [pthread_cancel], and when the words of
    all readers fit the table, there is always a next step: the readers
    and the printer never block each other on [mtx]. *)
Theorem deadlock_only_by_cancelled_printer (wss : list (list string)) (P : prog) :
  rtc pstep (prog_init wss) P →
  ((∃ P', pstep P P') ∨ main_at P = MExit ∨
   at_undefined_store (threads P) ∨ main_blocked P) ∧
  (cancel_sent P = false → fits (concat wss) → ∃ P', pstep P P').
Proof.
  intros [Ht Hb Ha Hal Hj]%prog_inv_reachable.
  destruct P as [s m c g]. simpl in *. split.
  - destruct g.
    + destruct c; [|by destruct (Hb eq_refl)].
      destruct (Ha eq_refl) as [Hdone Hno].
      destruct m as [i| | |]; [by specialize (Hno i)| | |].
      * left. eexists. apply pstep_join_printer.
      * pose proof (sys_inv_reachable _ _ (Ht ltac:(done))) as Hinv.
        destruct s as [T [[i|]|] rs p o].
        -- exfalso.
           destruct Hinv as (bufs & T0 & snaps & [_ _ _ _ _ _ _ _ _ _ Hh]).
           destruct (Hh _ eq_refl) as (r & Hi & Hr). simpl in *.
           by pose proof (Forall_lookup_1 _ _ _ _ Hdone Hi) as ->.
        -- right. right. right. done.
        -- left. eexists. apply pstep_final_report.
      * right. by left.
    + destruct (Hal eq_refl) as [_ Hm].
      destruct (sys_inv_next wss s) as [[s' Hstep]|Hub].
      * apply sys_inv_reachable. by apply Ht.
      * left. eexists. by apply pstep_thread.
      * right. right. by left.
  - intros -> Hfit. destruct (Hb eq_refl) as [-> [i ->]].
    destruct (sys_inv_next_fits wss s) as [s' Hstep]; [|done|].
    + apply sys_inv_reachable. by apply Ht.
    + eexists. by apply pstep_thread.
Qed.

Lemma deadlock_only_by_cancelled_printer_witness :
  rtc pstep (prog_init demo_wss) (Prog demo_final (MJoin 0) false false) ∧
  ((∃ P', pstep (Prog demo_final (MJoin 0) false false) P') ∨
   main_at (Prog demo_final (MJoin 0) false false) = MExit ∨
   at_undefined_store (threads (Prog demo_final (MJoin 0) false false)) ∨
   main_blocked (Prog demo_final (MJoin 0) false false)) ∧
  (cancel_sent (Prog demo_final (MJoin 0) false false) = false →
   fits (concat demo_wss) → ∃ P', pstep (Prog demo_final (MJoin 0) false false) P').
Proof.
  assert (H : rtc pstep (prog_init demo_wss) (Prog demo_final (MJoin 0) false false))
    by exact (pstep_threads _ _ _ _ demo_run).
  split; [exact H|]. exact (deadlock_only_by_cancelled_printer demo_wss _ H).
Defined.

(** The threads get every reader done and the mutex free, when the words
    fit. *)
Lemma sys_reaches_done wss :
  fits (concat wss) →
  ∃ T rs o, rtc step (sys_init wss) (Sys T None rs PSleep o) ∧
            readers_done (Sys T None rs PSleep o) ∧
            wc_record_all (concat wss) [] = Done T.
Proof.
  intros Hfit.
  destruct (sys_can_finish wss Hfit _ (sys_init wss) eq_refl (sys_inv_init wss))
    as ([T m rs p o] & Hrun & Hdone).
  pose proof (rtc_sys_inv _ _ _ (sys_inv_init wss) Hrun) as Hinv.
  destruct (mutex_gets_free _ _ _ _ _ _ Hinv) as [o' Hfree].
  { eapply Forall_impl; [exact Hdone|]. by intros r ->. }
  exists T, rs, o'. split_and!; [by etrans|done|].
  apply (sys_inv_done wss (Sys T m rs p o) Hinv Hdone).
Qed.

(** X22: the end of [main] can deadlock.  When the words fit, there is an
    execution in which every reader has made all of its calls and been
    joined, the printer has taken the mutex for one more report when
    [main] cancels it, and ends at its next [printf] with [mtx] still
    locked ([wc_thread_print] installs no cleanup handler): [main] then
    waits for ever in the [pthread_mutex_lock] of its final
    [wc_print_words], the final report is never printed and the program
    does not exit.  There is also an execution, with the printer cancelled
    in its [sleep], in which [main] prints the final report of the table
    of all the words and reaches its [exit]. *)
Theorem cancelled_printer_blocks_final_report (wss : list (list string)) :
  fits (concat wss) →
  (∃ D, rtc pstep (prog_init wss) D ∧ readers_done (threads D) ∧
        wc_record_all (concat wss) [] = Done (table (threads D)) ∧
        main_blocked D ∧ ¬ ∃ D', pstep D D') ∧
  (∃ E, rtc pstep (prog_init wss) E ∧ main_at E = MExit ∧
        wc_record_all (concat wss) [] = Done (table (threads E)) ∧
        ∃ o, out (threads E) = o ++ wc_print_words (table (threads E))).
Proof.
  intros Hfit. destruct (sys_reaches_done wss Hfit) as (T & rs & o & Hrun & Hdone & Hrec).
  split.
  - exists (Prog (Sys T (Some Printer) rs PHeader o) MLock true true).
    split_and!; [|done|done|done|by apply main_blocked_stuck].
    etrans; [apply pstep_threads; eapply rtc_r; [exact Hrun|apply step_p_lock]|].
    etrans; [by apply (pstep_joins _ _ _ (length rs) 0%nat)|].
    eapply rtc_l; [apply pstep_cancel|].
    eapply rtc_l; [by apply pstep_cancelled|].
    eapply rtc_l; [apply pstep_join_printer|]. done.
  - exists (Prog (Sys T None rs PSleep (o ++ wc_print_words T)) MExit true true).
    split_and!; [|done|done|by exists o].
    etrans; [apply pstep_threads; exact Hrun|].
    etrans; [by apply (pstep_joins _ _ _ (length rs) 0%nat)|].
    eapply rtc_l; [apply pstep_cancel|].
    eapply rtc_l; [by apply pstep_cancelled|].
    eapply rtc_l; [apply pstep_join_printer|].
    eapply rtc_l; [apply pstep_final_report|]. done.
Qed.

Lemma cancelled_printer_blocks_final_report_witness :
  fits (concat demo_wss) ∧
  (∃ D, rtc pstep (prog_init demo_wss) D ∧ readers_done (threads D) ∧
        wc_record_all (concat demo_wss) [] = Done (table (threads D)) ∧
        main_blocked D ∧ ¬ ∃ D', pstep D D') ∧
  (∃ E, rtc pstep (prog_init demo_wss) E ∧ main_at E = MExit ∧
        wc_record_all (concat demo_wss) [] = Done (table (threads E)) ∧
        ∃ o, out (threads E) = o ++ wc_print_words (table (threads E))).
Proof.
  assert (H : fits (concat demo_wss)).
  { apply (bool_decide_unpack _). vm_compute. reflexivity. }
  split; [exact H|]. exact (cancelled_printer_blocks_final_report demo_wss H).
Defined.
